(** * Airtable MCP: table directory and federated search

    A shallow embedding of the table-name resolver (refreshTableCache,
    resolveTableId), the search-formula builder (escapeForFormula,
    buildFormulaFromFields, buildSearchFormula), the single-table search
    (searchOneTable) and the search tool handler of the
    Airtable MCP worker, with the properties of its specification.

    Async functions are programs of a small free monad whose operations are
    the effects of the source: an HTTP call to the Airtable API (fetch
    followed by reading the JSON body), Date.now(), reading and assigning the
    module-level variable tableCache, and the sleep helper.  Promise.all is
    an interleaving of such programs driven by an arbitrary schedule. *)

From Stdlib Require Import String Ascii List ZArith Lia Bool Permutation.
From stdpp Require Import base option list gmap strings.

Local Open Scope Z_scope.
Local Open Scope nat_scope.

(** ** Characters and strings *)

(** A string is a sequence of 8-bit characters.  The code only looks at
    characters of the ASCII range (the class [a-zA-Z0-9], the backslash,
    the double quote), so nothing depends on the encoding of the others. *)

(** The double quote and the backslash, the two characters that
    escapeForFormula rewrites. *)
Definition dquote : ascii := ascii_of_nat 34.
Definition backslash : ascii := ascii_of_nat 92.

Definition str1 (c : ascii) : string := String c EmptyString.

Definition in_range (lo hi : nat) (c : ascii) : bool :=
  (lo <=? nat_of_ascii c) && (nat_of_ascii c <=? hi).

(** The character class [a-zA-Z0-9]. *)
Definition is_alnum (c : ascii) : bool :=
  in_range 97 122 c || in_range 65 90 c || in_range 48 57 c.

Fixpoint string_forallb (f : ascii -> bool) (s : string) : bool :=
  match s with
  | EmptyString => true
  | String c s' => f c && string_forallb f s'
  end.

(** /^tbl[a-zA-Z0-9]{10,}$/.test(s): the regular expression has no flag, so
    ^ and $ are the two ends of the input. *)
Definition is_table_id (s : string) : bool :=
  match s with
  | String "t" (String "b" (String "l" rest)) =>
      (10 <=? String.length rest) && string_forallb is_alnum rest
  | _ => false
  end.

(** The identifier pattern in the words of the specification: the fixed
    prefix tbl followed by at least ten alphanumeric characters. *)
Definition alnum_char (c : ascii) : Prop :=
  let n := nat_of_ascii c in
  (nat_of_ascii "a" <= n <= nat_of_ascii "z") \/
  (nat_of_ascii "A" <= n <= nat_of_ascii "Z") \/
  (nat_of_ascii "0" <= n <= nat_of_ascii "9").

Inductive all_chars (P : ascii -> Prop) : string -> Prop :=
| all_chars_nil : all_chars P EmptyString
| all_chars_cons c s : P c -> all_chars P s -> all_chars P (String c s).

Definition identifier_shaped (s : string) : Prop :=
  exists suffix : string,
    s = "tbl" +:+ suffix /\ 10 <= String.length suffix /\ all_chars alnum_char suffix.

(** s.replace(/c/g, by): every occurrence of the one-character pattern is
    replaced, left to right. *)
Fixpoint replace_char (c : ascii) (by_ : string) (s : string) : string :=
  match s with
  | EmptyString => EmptyString
  | String a s' =>
      if Ascii.eqb a c then by_ +:+ replace_char c by_ s'
      else String a (replace_char c by_ s')
  end.

(** function escapeForFormula(s):
      s.replace(/\\/g, "\\\\").replace(/"/g, '\\"') *)
Definition escapeForFormula (s : string) : string :=
  replace_char dquote (String backslash (str1 dquote))
    (replace_char backslash (String backslash (str1 backslash)) s).

(** The SEARCH predicate of one field:  SEARCH("qq", {n} & "")  *)
Definition search_part (qq n : string) : string :=
  "SEARCH(" +:+ str1 dquote +:+ qq +:+ str1 dquote +:+ ", {" +:+ n +:+ "} & "
    +:+ str1 dquote +:+ str1 dquote +:+ ")".

(** function buildFormulaFromFields(q, fields):
      const qq = escapeForFormula(q);
      const parts = fields.map((n) => `SEARCH("${qq}", {${n}} & "")`);
      return parts.length ? `OR(${parts.join(",")})` : ""; *)
Definition buildFormulaFromFields (q : string) (fields : list string) : string :=
  let qq := escapeForFormula q in
  let parts := map (fun n => search_part qq n) fields in
  if decide (length parts = 0) then EmptyString
  else "OR(" +:+ String.concat "," parts +:+ ")".

(** Escaping in the words of the specification: each backslash and each
    double quote gets a backslash in front, every other character stays. *)
Definition escape_char (c : ascii) : string :=
  if Ascii.eqb c backslash then String backslash (str1 backslash)
  else if Ascii.eqb c dquote then String backslash (str1 dquote)
  else str1 c.

Fixpoint escape_each (s : string) : string :=
  match s with
  | EmptyString => EmptyString
  | String c s' => escape_char c +:+ escape_each s'
  end.

(** A reader of the quoted literal of the expression language: it consumes
    characters up to the first double quote that no backslash escapes, and
    returns the text read (escapes undone) with what follows that quote. *)
Fixpoint read_literal (s : string) : option (string * string) :=
  match s with
  | EmptyString => None
  | String c s' =>
      if Ascii.eqb c dquote then Some (EmptyString, s')
      else if Ascii.eqb c backslash then
        match s' with
        | EmptyString => None
        | String d s'' =>
            match read_literal s'' with
            | Some (lit, rest) => Some (String d lit, rest)
            | None => None
            end
        end
      else
        match read_literal s' with
        | Some (lit, rest) => Some (String c lit, rest)
        | None => None
        end
  end.

(** ** The JSON the worker reads *)

(** A JSON value that the code passes on without looking inside (the fields
    of a record), kept as its text. *)
Definition Json := string.

(** A property that the code expects to hold an array:
    [Absent] is undefined, null or another falsy value, [NotArray] a truthy
    value that is no array, [Arr l] an array. *)
Inductive JArr (A : Type) : Type :=
| Absent
| NotArray
| Arr (l : list A).
Arguments Absent {A}.
Arguments NotArray {A}.
Arguments Arr {A} l.

(** An entry of a table's fields; a property that is missing is None. *)
Record FieldEntry : Type := mkField {
  f_name : option string;
  f_type : option string
}.

(** An entry of the tables listing (a null entry has every property
    missing). *)
Record TableEntry : Type := mkTable {
  t_id : option string;
  t_name : option string;
  t_fields : JArr FieldEntry
}.

(** A record of a listing call. *)
Record AirRecord : Type := mkRecord {
  r_id : option string;
  r_fields : option Json;
  r_createdTime : option string
}.

(** A parsed response body, by the properties the code reads from it:
    tables (metadata listing), records and offset (record listing).  An
    element of records that is null or undefined is None. *)
Record Body : Type := mkBody {
  b_tables : JArr TableEntry;
  b_records : JArr (option AirRecord);
  b_offset : option string
}.

(** JavaScript truthiness of a value that is a string or missing. *)
Definition truthy (o : option string) : bool :=
  match o with
  | Some s => negb (String.eqb s EmptyString)
  | None => false
  end.

(** The value when it is truthy: what passes a test such as if (x), !x or
    filter(Boolean). *)
Definition truthy_val (o : option string) : option string :=
  if truthy o then o else None.

(** a || b on such values. *)
Definition js_or (a b : option string) : option string :=
  if truthy a then a else b.

(** ** Environment, requests and errors *)

(** type ResolvedEnv, what getEnv() returns once the required variables are
    set (the API key plays no role in what follows). *)
Record ResolvedEnv : Type := mkEnv {
  AIRTABLE_BASE_ID : string;
  DEFAULT_TABLE : option string;
  ALLOWED_TABLES : option (gmap string string)
}.

(** The query string of a record listing (URLSearchParams with each key set
    at most once). *)
Record ListQuery : Type := mkQuery {
  qs_maxRecords : Z;
  qs_pageSize : option Z;
  qs_offset : option string;
  qs_filterByFormula : option string
}.

(** The calls of airtableFetch:
      meta/bases/${base}/tables
      ${base}/${encodeURIComponent(table)}?${qs}
      ${base}/${encodeURIComponent(table)}/${id} *)
Inductive Request : Type :=
| ReqMeta (base : string)
| ReqList (base table : string) (qs : ListQuery)
| ReqGet (base table id : string).

(** What awaiting fetch and then r.json() gives: the fetch rejects, the body
    is no JSON, or a parsed body. *)
Inductive FetchResult : Type :=
| NetworkError
| BadJson
| Parsed (b : Body).

(** What a function throws. *)
Inductive Error : Type :=
| JsError (message : string)
| TypeError
| FetchFailed
| SyntaxError.

(** type TableCache = { ts: number; byName: Record<string, string> }
    The object byName is read as the finite map of its own properties, as
    its type says (the properties every object inherits are left out). *)
Record TableCache : Type := mkCache {
  ts : Z;
  byName : gmap string string
}.

(** ** Programs *)

Inductive Prog (A : Type) : Type :=
| Ret (a : A)
| Throw (e : Error)
| Fetch (rq : Request) (k : FetchResult -> Prog A)
| Now (k : Z -> Prog A)
| GetCache (k : option TableCache -> Prog A)
| SetCache (c : TableCache) (k : Prog A)
| Sleep (ms : Z) (k : Prog A).
Arguments Ret {A} a.
Arguments Throw {A} e.
Arguments Fetch {A} rq k.
Arguments Now {A} k.
Arguments GetCache {A} k.
Arguments SetCache {A} c k.
Arguments Sleep {A} ms k.

Fixpoint bind {A B : Type} (p : Prog A) (f : A -> Prog B) : Prog B :=
  match p with
  | Ret a => f a
  | Throw e => Throw e
  | Fetch rq k => Fetch rq (fun r => bind (k r) f)
  | Now k => Now (fun z => bind (k z) f)
  | GetCache k => GetCache (fun c => bind (k c) f)
  | SetCache c k => SetCache c (bind k f)
  | Sleep ms k => Sleep ms (bind k f)
  end.

(** promise.catch(handler) *)
Fixpoint catch {A : Type} (p : Prog A) (h : Error -> Prog A) : Prog A :=
  match p with
  | Ret a => Ret a
  | Throw e => h e
  | Fetch rq k => Fetch rq (fun r => catch (k r) h)
  | Now k => Now (fun z => catch (k z) h)
  | GetCache k => GetCache (fun c => catch (k c) h)
  | SetCache c k => SetCache c (catch k h)
  | Sleep ms k => Sleep ms (catch k h)
  end.

Declare Scope prog_scope.
Delimit Scope prog_scope with prog.
Notation "x <- p ;; q" := (bind p (fun x => q))
  (at level 100, p at next level, right associativity) : prog_scope.
Notation "p ;;; q" := (bind p (fun _ => q))
  (at level 100, right associativity) : prog_scope.

(** const r = await airtableFetch(path); const data = await r.json(); *)
Definition fetch_json (rq : Request) : Prog Body :=
  Fetch rq (fun r =>
    match r with
    | NetworkError => Throw FetchFailed
    | BadJson => Throw SyntaxError
    | Parsed b => Ret b
    end).

Definition now : Prog Z := Now (fun z => Ret z).
Definition get_cache : Prog (option TableCache) := GetCache (fun c => Ret c).
Definition set_cache (c : TableCache) : Prog unit := SetCache c (Ret tt).
Definition sleep (ms : Z) : Prog unit := Sleep ms (Ret tt).

(** ** Running a program *)

(** What a run leaves behind, in order: the calls with their answers, the
    clock readings, the assignments of tableCache and the sleeps. *)
Inductive Event : Type :=
| EvFetch (rq : Request) (r : FetchResult)
| EvNow (z : Z)
| EvSetCache (c : TableCache)
| EvSleep (ms : Z).

(** The state of the worker: the variable tableCache and the trace. *)
Record World : Type := mkWorld {
  tableCache : option TableCache;
  trace : list Event
}.

(** The outside: the answer of the service and the reading of the clock,
    each of which may depend on everything that happened before. *)
Record Outside : Type := mkOutside {
  respond : list Event -> Request -> FetchResult;
  clock : list Event -> Z
}.

Inductive Result (A : Type) : Type :=
| Ok (a : A)
| Err (e : Error).
Arguments Ok {A} a.
Arguments Err {A} e.

Definition record (ev : Event) (w : World) : World :=
  mkWorld (tableCache w) (trace w ++ [ev]).

Fixpoint run {A : Type} (o : Outside) (p : Prog A) (w : World) : Result A * World :=
  match p with
  | Ret a => (Ok a, w)
  | Throw e => (Err e, w)
  | Fetch rq k =>
      let r := respond o (trace w) rq in
      run o (k r) (record (EvFetch rq r) w)
  | Now k =>
      let z := clock o (trace w) in
      run o (k z) (record (EvNow z) w)
  | GetCache k => run o (k (tableCache w)) w
  | SetCache c k => run o k (mkWorld (Some c) (trace w ++ [EvSetCache c]))
  | Sleep ms k => run o k (record (EvSleep ms) w)
  end.

Local Open Scope prog_scope.

(** ** The table directory *)

(** The body of the loop of refreshTableCache:
      if (t?.name && t?.id) map[t.name] = t.id; *)
Definition add_table (m : gmap string string) (t : TableEntry) : gmap string string :=
  match t_name t, t_id t with
  | Some n, Some i =>
      if truthy (Some n) && truthy (Some i) then <[n := i]> m else m
  | _, _ => m
  end.

(** ALLOWED_TABLES ? { ...ALLOWED_TABLES } : {} *)
Definition seed_map (env : ResolvedEnv) : gmap string string :=
  match ALLOWED_TABLES env with
  | Some a => a
  | None => ∅
  end.

(** The working map of a refresh: the seed, then the tables of the answer
    when it holds an array (Array.isArray(data?.tables)). *)
Definition refreshed_map (env : ResolvedEnv) (data : Body) : gmap string string :=
  match b_tables data with
  | Arr l => fold_left add_table l (seed_map env)
  | _ => seed_map env
  end.

(** async function refreshTableCache() *)
Definition refreshTableCache (env : ResolvedEnv) : Prog TableCache :=
  data <- fetch_json (ReqMeta (AIRTABLE_BASE_ID env)) ;;
  t <- now ;;
  let c := mkCache t (refreshed_map env data) in
  set_cache c ;;;
  Ret c.

(** 5 * 60_000 *)
Definition TTL : Z := 5 * 60000.

(** !tableCache || now - tableCache.ts > 5 * 60_000 *)
Definition stale (c : option TableCache) (now_ : Z) : bool :=
  match c with
  | None => true
  | Some c => (TTL <? now_ - ts c)%Z
  end.

(** The identifier a lookup gives when it is truthy (the test !id of the
    source takes a missing name and an empty identifier alike). *)
Definition found (m : gmap string string) (name : string) : option string :=
  truthy_val (m !! name).

(** tableCache!.byName[name]: reading a property of null throws. *)
Definition read_byName (name : string) : Prog (option string) :=
  c <- get_cache ;;
  match c with
  | None => Throw TypeError
  | Some c => Ret (found (byName c) name)
  end.

Definition not_found_message (name : string) : string :=
  "Table not found by name: " +:+ name.

(** The first step of resolveTableId:
      const now = Date.now();
      if (!tableCache || now - tableCache.ts > 5 * 60_000) await refreshTableCache(); *)
Definition ensure_fresh (env : ResolvedEnv) : Prog unit :=
  now_ <- now ;;
  c <- get_cache ;;
  if stale c now_ then (refreshTableCache env ;;; Ret tt) else Ret tt.

(** async function resolveTableId(tableOrId) *)
Definition resolveTableId (env : ResolvedEnv) (tableOrId : string) : Prog string :=
  if is_table_id tableOrId then Ret tableOrId
  else
    ensure_fresh env ;;;
    id <- read_byName tableOrId ;;
    match id with
    | Some i => Ret i
    | None =>
        refreshTableCache env ;;;
        id2 <- read_byName tableOrId ;;
        match id2 with
        | Some i2 => Ret i2
        | None => Throw (JsError (not_found_message tableOrId))
        end
    end.

(** ** The search formula *)

(** (x || []) followed by an array method: a falsy value gives the empty
    array, a truthy value that is no array has no such method. *)
Definition arr_or_empty {A : Type} (a : JArr A) : Prog (list A) :=
  match a with
  | Absent => Ret []
  | NotArray => Throw TypeError
  | Arr l => Ret l
  end.

Definition text_types : list string :=
  ["singleLineText"; "multilineText"; "richText"; "email"; "url"].

(** ["singleLineText", ...].includes(f?.type) *)
Definition is_text_field (f : FieldEntry) : bool :=
  match f_type f with
  | Some ty => existsb (String.eqb ty) text_types
  | None => false
  end.

(** A field name inside the template literal: undefined prints as such. *)
Definition name_text (f : FieldEntry) : string :=
  match f_name f with
  | Some n => n
  | None => "undefined"
  end.

(** .find((t) => t?.id === tableId) *)
Definition find_table (tableId : string) (l : list TableEntry) : option TableEntry :=
  find (fun t => match t_id t with
                 | Some i => String.eqb i tableId
                 | None => false
                 end) l.

(** .filter(text type).map(name).slice(0, 12) *)
Definition pick_fields (fs : list FieldEntry) : list string :=
  take 12 (map name_text (List.filter is_text_field fs)).

(** async function buildSearchFormula(tableNameOrId, q, fieldsToSearch?) *)
Definition buildSearchFormula (env : ResolvedEnv) (tableNameOrId q : string)
    (fieldsToSearch : option (list string)) : Prog string :=
  match fieldsToSearch with
  | Some (f :: fs) => Ret (buildFormulaFromFields q (f :: fs))
  | _ =>
      tableId <- resolveTableId env tableNameOrId ;;
      data <- fetch_json (ReqMeta (AIRTABLE_BASE_ID env)) ;;
      tables <- arr_or_empty (b_tables data) ;;
      let tbl := find_table tableId tables in
      fs <- arr_or_empty (match tbl with Some t => t_fields t | None => Absent end) ;;
      Ret (buildFormulaFromFields q (pick_fields fs))
  end.

(** ** Searching one table *)

Record Hit : Type := mkHit {
  h_id : option string;
  h_table : string;
  h_fields : option Json;
  h_createdTime : option string
}.

Record SearchOut : Type := mkOut {
  hits : list Hit;
  offset : option string
}.

Record SearchParams : Type := mkParams {
  p_baseId : string;
  p_tableNameOrId : string;
  p_q : string;
  p_maxRecords : Z;
  p_pageSize : option Z;
  p_offset : option string;
  p_fieldsToSearch : option (list string)
}.

(** The query string of searchOneTable: maxRecords always, the others only
    when truthy. *)
Definition list_query (maxRecords : Z) (pageSize : option Z)
    (offset_ : option string) (formula : string) : ListQuery :=
  mkQuery maxRecords
    (match pageSize with
     | Some n => if (n =? 0)%Z then None else Some n
     | None => None
     end)
    (truthy_val offset_)
    (truthy_val (Some formula)).

(** (rec) => ({ id: rec.id, table, fields: rec.fields, createdTime }) on one
    element: reading rec.id of null or undefined throws. *)
Definition to_hit (table : string) (rec : option AirRecord) : option Hit :=
  match rec with
  | Some r => Some (mkHit (r_id r) table (r_fields r) (r_createdTime r))
  | None => None
  end.

Definition to_hits (table : string) (recs : list (option AirRecord)) : Prog (list Hit) :=
  match mapM (to_hit table) recs with
  | Some hs => Ret hs
  | None => Throw TypeError
  end.

(** async function searchOneTable(params) *)
Definition searchOneTable (env : ResolvedEnv) (p : SearchParams) : Prog SearchOut :=
  formula <- catch (buildSearchFormula env (p_tableNameOrId p) (p_q p) (p_fieldsToSearch p))
                   (fun _ => Ret EmptyString) ;;
  let qs := list_query (p_maxRecords p) (p_pageSize p) (p_offset p) formula in
  data <- fetch_json (ReqList (p_baseId p) (p_tableNameOrId p) qs) ;;
  recs <- arr_or_empty (b_records data) ;;
  hs <- to_hits (p_tableNameOrId p) recs ;;
  Ret (mkOut hs (b_offset data)).

(** ** Promise.all *)

(** The tasks of one Promise.all run interleaved.  A schedule names, step
    after step, the task that performs its next operation; a task that has
    settled, or a number that names no task, makes the step idle. *)
Definition advance {B : Type} (j : nat) (tasks : list (Prog B))
    (rest : list (Prog B) -> Prog (list B)) : Prog (list B) :=
  match tasks !! j with
  | Some (Fetch rq k) => Fetch rq (fun r => rest (<[j := k r]> tasks))
  | Some (Now k) => Now (fun z => rest (<[j := k z]> tasks))
  | Some (GetCache k) => GetCache (fun c => rest (<[j := k c]> tasks))
  | Some (SetCache c k) => SetCache c (rest (<[j := k]> tasks))
  | Some (Sleep ms k) => Sleep ms (rest (<[j := k]> tasks))
  | Some (Ret _) | Some (Throw _) | None => rest tasks
  end.

(** The tasks one after the other, results in the order of the tasks. *)
Fixpoint in_turn {B : Type} (tasks : list (Prog B)) : Prog (list B) :=
  match tasks with
  | [] => Ret []
  | p :: ps => b <- p ;; bs <- in_turn ps ;; Ret (b :: bs)
  end.

(** Promise.all(tasks) under a schedule; when the schedule ends, what is
    left of the tasks runs in turn.  The value is the array of the tasks'
    values in the order of the tasks. *)
Fixpoint promise_all {B : Type} (sched : list nat) (tasks : list (Prog B)) : Prog (list B) :=
  match sched with
  | [] => in_turn tasks
  | j :: sched' => advance j tasks (promise_all sched')
  end.

(** ** The search tool *)

(** The content a tool handler returns. *)
Inductive ToolResult : Type :=
| TextContent (text : string)
| JsonAllTables (query : string) (merged : list Hit)
| JsonNote (note : string)
| JsonTable (query table : string) (hs : list Hit) (next : option string)
| JsonBody (b : Body).

Record SearchArgs : Type := mkArgs {
  a_q : string;
  a_table : option string;
  a_allTables : bool;
  a_fieldsToSearch : option (list string);
  a_maxRecords : Z;
  a_pageSize : option Z;
  a_offset : option string
}.

(** const BATCH = 3; and the argument of sleep *)
Definition BATCH : nat := 3.
Definition PAUSE : Z := 300.

(** .map((t) => t?.name || t?.id).filter(Boolean) *)
Definition table_refs (l : list TableEntry) : list string :=
  omap (fun t => truthy_val (js_or (t_name t) (t_id t))) l.

(** tables.slice(i, j) *)
Definition slice {A : Type} (l : list A) (i j : nat) : list A :=
  take (j - i) (drop i l).

(** searchOneTable({...}).catch(() => ({ hits: [] })) *)
Definition table_task (env : ResolvedEnv) (a : SearchArgs) (t : string) : Prog SearchOut :=
  catch (searchOneTable env
           (mkParams (AIRTABLE_BASE_ID env) t (a_q a) (a_maxRecords a)
                     (a_pageSize a) None (a_fieldsToSearch a)))
        (fun _ => Ret (mkOut [] None)).

(** for (const r of results) merged.push(...(r.hits || [])); *)
Definition push_hits (merged : list Hit) (results : list SearchOut) : list Hit :=
  fold_left (fun m r => m ++ hits r) results merged.

(** The loop  for (let i = 0; i < tables.length; i += BATCH)  from index i
    on.  [scheds i] is the schedule of the batch that starts at index i;
    [fuel] bounds the number of rounds. *)
Fixpoint batch_loop (env : ResolvedEnv) (a : SearchArgs) (scheds : nat -> list nat)
    (tables : list string) (fuel : nat) (i : nat) (merged : list Hit) : Prog (list Hit) :=
  if i <? length tables then
    match fuel with
    | 0 => Ret merged
    | S fuel' =>
        let batch := slice tables i (i + BATCH) in
        results <- promise_all (scheds i) (map (table_task env a) batch) ;;
        let merged' := push_hits merged results in
        (if i + BATCH <? length tables then sleep PAUSE else Ret tt) ;;;
        batch_loop env a scheds tables fuel' (i + BATCH) merged'
    end
  else Ret merged.

(** The branch  if (allTables) { ... }  of the handler. *)
Definition search_allTables (env : ResolvedEnv) (a : SearchArgs)
    (scheds : nat -> list nat) : Prog ToolResult :=
  list_ <- fetch_json (ReqMeta (AIRTABLE_BASE_ID env)) ;;
  entries <- arr_or_empty (b_tables list_) ;;
  let tables := table_refs entries in
  merged <- batch_loop env a scheds tables (length tables) 0 [] ;;
  Ret (JsonAllTables (a_q a) merged).

(** table ?? DEFAULT_TABLE *)
Definition nullish_or (a b : option string) : option string :=
  match a with
  | Some x => Some x
  | None => b
  end.

(** j0?.tables?.[0] *)
Definition first_table (data : Body) : TableEntry :=
  match b_tables data with
  | Arr (t :: _) => t
  | _ => mkTable None None Absent
  end.

(** (j0?.tables?.[0]?.name) || (j0?.tables?.[0]?.id), when truthy *)
Definition first_table_ref (j0 : Body) : option string :=
  truthy_val (js_or (t_name (first_table j0)) (t_id (first_table j0))).

Definition no_tables_note : string := "No tables found in base".

(** The single-table branch of the handler:
      let targetTable = table ?? DEFAULT_TABLE;
      if (!targetTable) { ...first table...; if (!targetTable) return note }
      const { hits, offset: next } = await searchOneTable({...}); *)
Definition search_table (env : ResolvedEnv) (a : SearchArgs) (t : string) : Prog ToolResult :=
  out <- searchOneTable env
           (mkParams (AIRTABLE_BASE_ID env) t (a_q a) (a_maxRecords a)
                     (a_pageSize a) (a_offset a) (a_fieldsToSearch a)) ;;
  Ret (JsonTable (a_q a) t (hits out) (offset out)).

Definition search_single (env : ResolvedEnv) (a : SearchArgs) : Prog ToolResult :=
  match truthy_val (nullish_or (a_table a) (DEFAULT_TABLE env)) with
  | Some t => search_table env a t
  | None =>
      j0 <- fetch_json (ReqMeta (AIRTABLE_BASE_ID env)) ;;
      match first_table_ref j0 with
      | Some t => search_table env a t
      | None => Ret (JsonNote no_tables_note)
      end
  end.

(** The handler of the search tool. *)
Definition search (env : ResolvedEnv) (a : SearchArgs) (scheds : nat -> list nat) : Prog ToolResult :=
  if a_allTables a then search_allTables env a scheds else search_single env a.

(** The handler of the fetch tool, the sibling that asks for a table:
      const tbl = table ?? DEFAULT_TABLE;
      if (!tbl) return text "Error: table is required (no DEFAULT_TABLE set)" *)
Definition table_required_message : string :=
  "Error: table is required (no DEFAULT_TABLE set)".

Definition fetch_tool (env : ResolvedEnv) (table : option string) (id : string) : Prog ToolResult :=
  match truthy_val (nullish_or table (DEFAULT_TABLE env)) with
  | Some t =>
      b <- fetch_json (ReqGet (AIRTABLE_BASE_ID env) t id) ;;
      Ret (JsonBody b)
  | None => Ret (TextContent table_required_message)
  end.

(** ** Reading traces *)

Definition is_meta_fetch (ev : Event) : bool :=
  match ev with
  | EvFetch (ReqMeta _) _ => true
  | _ => false
  end.

Definition is_list_fetch (ev : Event) : bool :=
  match ev with
  | EvFetch (ReqList _ _ _) _ => true
  | _ => false
  end.

Definition is_sleep (ev : Event) : bool :=
  match ev with
  | EvSleep _ => true
  | _ => false
  end.

Definition is_set_cache (ev : Event) : bool :=
  match ev with
  | EvSetCache _ => true
  | _ => false
  end.

(** What a run added to the trace of the world it started from. *)
Definition since (w w' : World) : list Event :=
  drop (length (trace w)) (trace w').

(** The metadata listings in a trace.  refreshTableCache issues exactly one,
    so in a trace of resolveTableId they count the refreshes. *)
Definition meta_calls (tr : list Event) : nat :=
  length (List.filter is_meta_fetch tr).

(** The pauses in a trace. *)
Definition sleeps (tr : list Event) : list Z :=
  omap (fun ev => match ev with EvSleep ms => Some ms | _ => None end) tr.

(** The tables of the record listings in a trace, in the order of the calls. *)
Definition listed_tables (tr : list Event) : list string :=
  omap (fun ev => match ev with
                  | EvFetch (ReqList _ t _) _ => Some t
                  | _ => None
                  end) tr.

(** What searchOneTable makes of the answer to its listing call. *)
Definition search_outcome (table : string) (r : FetchResult) : Result SearchOut :=
  match r with
  | NetworkError => Err FetchFailed
  | BadJson => Err SyntaxError
  | Parsed data =>
      match b_records data with
      | Absent => Ok (mkOut [] (b_offset data))
      | NotArray => Err TypeError
      | Arr recs =>
          match mapM (to_hit table) recs with
          | Some hs => Ok (mkOut hs (b_offset data))
          | None => Err TypeError
          end
      end
  end.



(** The value of a table task, searchOneTable(...).catch(() => ({ hits: [] })),
    given the answer to its listing call. *)
Definition task_result (table : string) (r : FetchResult) : SearchOut :=
  match search_outcome table r with
  | Ok out => out
  | Err _ => mkOut [] None
  end.

(** The formula a search goes on with, after .catch(() => ""). *)
Definition formula_or_empty (r : Result string) : string :=
  match r with
  | Ok f => f
  | Err _ => EmptyString
  end.



(** ** What the service reports *)



(** ** A task seen from inside *)

(** [Runs p log r]: the program p, given the answers written in log, performs
    the events of log in order and settles with r.  The reads of tableCache
    leave no event; they may see any value, as other tasks may assign the
    variable in between. *)
Inductive Runs {A : Type} : Prog A -> list Event -> Result A -> Prop :=
| runs_ret a : Runs (Ret a) [] (Ok a)
| runs_throw e : Runs (Throw e) [] (Err e)
| runs_fetch rq k r log res :
    Runs (k r) log res -> Runs (Fetch rq k) (EvFetch rq r :: log) res
| runs_now k z log res :
    Runs (k z) log res -> Runs (Now k) (EvNow z :: log) res
| runs_get k c log res :
    Runs (k c) log res -> Runs (GetCache k) log res
| runs_set c k log res :
    Runs k log res -> Runs (SetCache c k) (EvSetCache c :: log) res
| runs_sleep ms k log res :
    Runs k log res -> Runs (Sleep ms k) (EvSleep ms :: log) res.

(** A program that lists no records and never sleeps. *)
Inductive Quiet {A : Type} : Prog A -> Prop :=
| quiet_ret a : Quiet (Ret a)
| quiet_throw e : Quiet (Throw e)
| quiet_fetch rq k :
    is_list_fetch (EvFetch rq NetworkError) = false ->
    (forall r, Quiet (k r)) -> Quiet (Fetch rq k)
| quiet_now k : (forall z, Quiet (k z)) -> Quiet (Now k)
| quiet_get k : (forall c, Quiet (k c)) -> Quiet (GetCache k)
| quiet_set c k : Quiet k -> Quiet (SetCache c k).

(** ** Batches *)

(** The partition of the specification: consecutive batches of size k, the
    last one holding what is left. *)
Definition batch_count (k n : nat) : nat := (n + k - 1) / k.

Definition batches {A : Type} (k : nat) (l : list A) : list (list A) :=
  map (fun b => take k (drop (b * k) l)) (seq 0 (batch_count k (length l))).

(** The start indices the loop visits: i, i + BATCH, ... below n. *)
Fixpoint loop_starts (fuel i n : nat) : list nat :=
  if i <? n then
    match fuel with
    | 0 => []
    | S fuel' => i :: loop_starts fuel' (i + BATCH) n
    end
  else [].

(** list?.tables || [] when it is an array or falsy. *)
Definition listed_entries (data : Body) : list TableEntry :=
  match b_tables data with
  | Arr l => l
  | _ => []
  end.

(** The listing call of a table task and its answer. *)
Record Listing : Type := mkListing {
  l_table : string;
  l_formula : string;
  l_answer : FetchResult
}.

Definition listing_event (env : ResolvedEnv) (a : SearchArgs) (l : Listing) : Event :=
  EvFetch (ReqList (AIRTABLE_BASE_ID env) (l_table l)
             (list_query (a_maxRecords a) (a_pageSize a) None (l_formula l)))
          (l_answer l).

(** The value of the task of a table, and what the table contributes to a
    federated search: the hits of its listing, or nothing when its search
    failed. *)
Definition listing_result (l : Listing) : SearchOut :=
  task_result (l_table l) (l_answer l).

Definition listing_hits (l : Listing) : list Hit :=
  hits (listing_result l).

(** The trace of one batch: no pause, and one listing call for each table of
    the batch, in any order, among calls that list no records. *)
Definition batch_trace (env : ResolvedEnv) (a : SearchArgs)
    (ls : list Listing) (seg : list Event) : Prop :=
  sleeps seg = [] /\
  Permutation (List.filter is_list_fetch seg) (map (listing_event env a) ls).

(** The trace of the rounds: the traces of the batches in order, with one
    pause of PAUSE ms between a batch and the next and none after the last. *)
Inductive Rounds (env : ResolvedEnv) (a : SearchArgs) :
    list (list Listing) -> list Event -> Prop :=
| rounds_none : Rounds env a [] []
| rounds_last ls seg :
    batch_trace env a ls seg -> Rounds env a [ls] seg
| rounds_more ls lss seg rest :
    lss <> [] ->
    batch_trace env a ls seg ->
    Rounds env a lss rest ->
    Rounds env a (ls :: lss) (seg ++ EvSleep PAUSE :: rest).

(** ** Field references of an expression *)




(** ** The outcome of a Promise.all *)

(** [AllSettled tasks suffix res]: the events of suffix are those of the
    tasks, each task having run on a log of its own; the value is the list
    of the tasks' values in the order of the tasks, and an error is the
    error of one of the tasks. *)
Definition AllSettled {B : Type} (tasks : list (Prog B)) (suffix : list Event)
    (res : Result (list B)) : Prop :=
  exists logs : list (list Event),
    length logs = length tasks /\
    Permutation suffix (concat logs) /\
    match res with
    | Ok rs => Forall3 (fun p log r => Runs p log (Ok r)) tasks logs rs
    | Err e => exists j p log, tasks !! j = Some p /\ Runs p log (Err e)
    end.

(** ** Concrete inputs *)

(** A worker with no default table and an allowlist of one table. *)
Definition env0 : ResolvedEnv :=
  mkEnv "appBase" None (Some {[ "Tasks" := "tblSEEDSEEDSEED1" ]}).



(** A service that lists the table Tasks under a live identifier, and the
    table Projects only from its second listing on (a table created after
    the first refresh); the clock shows the number of events so far. *)
Definition tasks_entry : TableEntry :=
  mkTable (Some "tblLIVELIVELIVE1") (Some "Tasks")
    (Arr [mkField (Some "Title") (Some "singleLineText");
          mkField (Some "Done") (Some "checkbox")]).

Definition projects_entry : TableEntry :=
  mkTable (Some "tblPROJPROJPROJ1") (Some "Projects") (Arr []).

Definition outside0 : Outside :=
  mkOutside
    (fun tr rq =>
       match rq with
       | ReqMeta _ =>
           if meta_calls tr =? 0
           then Parsed (mkBody (Arr [tasks_entry]) Absent None)
           else Parsed (mkBody (Arr [tasks_entry; projects_entry]) Absent None)
       | _ => Parsed (mkBody Absent (Arr []) None)
       end)
    (fun tr => Z.of_nat (length tr)).

Definition world0 : World := mkWorld None [].

(** A world whose snapshot, taken at time 10, knows Tasks only. *)
Definition world_fresh : World :=
  mkWorld (Some (mkCache 10 {[ "Tasks" := "tblLIVELIVELIVE1" ]})) [].

(** A search with no table argument, and schedules that leave every batch
    to run its tasks in turn. *)
Definition args0 : SearchArgs :=
  mkArgs "x" None false (Some ["Title"]) 5 None None.

Definition in_turn_scheds : nat -> list nat := fun _ => [].

(** A base with no table. *)
Definition outside_empty : Outside :=
  mkOutside (fun _ _ => Parsed (mkBody (Arr []) Absent None)) (fun _ => 0%Z).

(** A base of seven tables T1 ... T7.  The listing of T4 fails on the
    network; the listing of any other table returns one record. *)
Definition seven_names : list string := ["T1"; "T2"; "T3"; "T4"; "T5"; "T6"; "T7"].

Definition seven_tables : list TableEntry :=
  map (fun n => mkTable (Some ("tbl00000000" +:+ n)) (Some n) Absent) seven_names.

Definition record_of (t : string) : AirRecord :=
  mkRecord (Some ("rec" +:+ t)) None None.

Definition hit_of (t : string) : Hit :=
  mkHit (Some ("rec" +:+ t)) t None None.

Definition outside7 : Outside :=
  mkOutside
    (fun _ rq =>
       match rq with
       | ReqMeta _ => Parsed (mkBody (Arr seven_tables) Absent None)
       | ReqList _ t _ =>
           if String.eqb t "T4" then NetworkError
           else Parsed (mkBody Absent (Arr [Some (record_of t)]) None)
       | ReqGet _ _ _ => BadJson
       end)
    (fun _ => 0%Z).

(** A federated search over named fields, and schedules that let the tasks
    of a batch issue their calls in the reverse order of the tables. *)
Definition args_all : SearchArgs :=
  mkArgs "x" None true (Some ["Name"]) 5 None None.

Definition reversed_scheds : nat -> list nat := fun _ => [2; 1; 0].

(** A base whose first listing of the tables shows the table T1 and whose
    later listings are answered by [later], while the records of T1 can be
    listed: with [later] a listing without T1, or a failure of the network,
    no refresh finds T1. *)
Definition t1_entry : TableEntry :=
  mkTable (Some "tbl00000000T1") (Some "T1") Absent.

Definition outside_unresolved (later : FetchResult) : Outside :=
  mkOutside
    (fun tr rq =>
       match rq with
       | ReqMeta _ =>
           if meta_calls tr =? 0
           then Parsed (mkBody (Arr [t1_entry]) Absent None)
           else later
       | ReqList _ t _ => Parsed (mkBody Absent (Arr [Some (record_of t)]) None)
       | ReqGet _ _ _ => BadJson
       end)
    (fun _ => 0%Z).

Definition no_tables : FetchResult := Parsed (mkBody (Arr []) Absent None).

(** A federated search that leaves the fields to the schema. *)
Definition args_auto : SearchArgs :=
  mkArgs "x" None true None 5 None None.

(** ** The environment as the worker finds it *)

(** Each variable as globalThis and process.env hold it (None: undefined,
    also when process.env itself is undefined).  The global process is taken
    to exist, as it does under Node and under the Node compatibility of the
    worker runtime; without it the right operand of ?? is a reference error. *)
Record RawEnv : Type := mkRaw {
  g_API_KEY : option string;
  p_API_KEY : option string;
  g_BASE_ID : option string;
  p_BASE_ID : option string;
  g_DEFAULT_TABLE : option string;
  p_DEFAULT_TABLE : option string;
  g_ALLOWED_TABLES : option string;
  p_ALLOWED_TABLES : option string
}.

Definition missing_env_message (name : string) : string :=
  "Missing required env: " +:+ name.

(** function must(name, v):
      if (!v) throw new Error(`Missing required env: ${name}`);
      return v; *)
Definition must (name : string) (v : option string) : Result string :=
  match truthy_val v with
  | Some s => Ok s
  | None => Err (JsError (missing_env_message name))
  end.

(** const getEnv = (): ResolvedEnv => { ... }, with the API key beside the
    rest.  [parse] is JSON.parse read as a Record<string, string>, None when
    it throws; the properties of the object literal are evaluated in order,
    the API key first. *)
Definition getEnv (parse : string -> option (gmap string string)) (raw : RawEnv)
    : Result (string * ResolvedEnv) :=
  let ALLOWED_TABLES_RAW := nullish_or (g_ALLOWED_TABLES raw) (p_ALLOWED_TABLES raw) in
  let allowed :=
    match truthy_val ALLOWED_TABLES_RAW with
    | Some s => parse s
    | None => None
    end in
  match must "AIRTABLE_API_KEY" (nullish_or (g_API_KEY raw) (p_API_KEY raw)) with
  | Err e => Err e
  | Ok key =>
      match must "AIRTABLE_BASE_ID" (nullish_or (g_BASE_ID raw) (p_BASE_ID raw)) with
      | Err e => Err e
      | Ok base =>
          Ok (key, mkEnv base
                     (nullish_or (g_DEFAULT_TABLE raw) (p_DEFAULT_TABLE raw))
                     allowed)
      end
  end.

(** ** More readings of programs and strings *)

(** A program whose only operations are listings of records and pauses. *)
Inductive ListOnly {A : Type} : Prog A -> Prop :=
| list_only_ret a : ListOnly (Ret a)
| list_only_throw e : ListOnly (Throw e)
| list_only_fetch rq k :
    is_list_fetch (EvFetch rq NetworkError) = true ->
    (forall r, ListOnly (k r)) -> ListOnly (Fetch rq k)
| list_only_sleep ms k : ListOnly k -> ListOnly (Sleep ms k).

(** A query that escapeForFormula has nothing to do on. *)
Definition needs_no_escape (q : string) : Prop :=
  string_forallb (fun c => negb (Ascii.eqb c backslash || Ascii.eqb c dquote)) q = true.

(** The fetches of a trace. *)
Definition is_fetch (ev : Event) : bool :=
  match ev with
  | EvFetch _ _ => true
  | _ => false
  end.

(** A raw environment with both required variables, one of them only in
    process.env, and an allowlist that is no JSON. *)
Definition raw0 : RawEnv :=
  mkRaw (Some "key") None None (Some "appBase") None (Some "Tasks")
        (Some "{oops") None.

Definition parse_nothing : string -> option (gmap string string) := fun _ => None.

(** A world whose snapshot was taken at time 0 and knows Tasks, and an
    outside whose network is down and whose clock shows exactly the age
    5 * 60_000. *)
Definition world_aged : World :=
  mkWorld (Some (mkCache 0 {[ "Tasks" := "tblLIVELIVELIVE1" ]})) [].

Definition outside_down (t : Z) : Outside :=
  mkOutside (fun _ _ => NetworkError) (fun _ => t).


(** A search of Tasks in the field Title, and a service whose listing of
    records returns two records and a continuation token. *)
Definition params0 : SearchParams :=
  mkParams "appBase" "Tasks" "x" 5 None None (Some ["Title"]).

Definition two_records : list AirRecord :=
  [mkRecord (Some "rec1") (Some "{}") (Some "2024-01-01");
   mkRecord (Some "rec2") None None].

Definition outside_two : Outside :=
  mkOutside
    (fun _ rq =>
       match rq with
       | ReqList _ _ _ => Parsed (mkBody Absent (Arr (map Some two_records)) (Some "itr/rec2"))
       | _ => NetworkError
       end)
    (fun _ => 0%Z).

(** A search whose table argument is the empty string. *)
Definition args_empty_table : SearchArgs :=
  mkArgs "x" (Some EmptyString) false (Some ["Title"]) 5 None None.

(** ** The worker entry *)

(** The bindings a request comes with (env of the fetch handler; an
    undefined env has none). *)
Record Bindings : Type := mkBindings {
  b_API_KEY : option string;
  b_BASE_ID : option string;
  b_DEFAULT_TABLE : option string;
  b_ALLOWED_TABLES : option string
}.

(** The first statements of the fetch handler of the worker:
      globalThis.X = env?.X ?? globalThis.X;   for the four variables *)
Definition expose (b : Bindings) (raw : RawEnv) : RawEnv :=
  mkRaw (nullish_or (b_API_KEY b) (g_API_KEY raw)) (p_API_KEY raw)
        (nullish_or (b_BASE_ID b) (g_BASE_ID raw)) (p_BASE_ID raw)
        (nullish_or (b_DEFAULT_TABLE b) (g_DEFAULT_TABLE raw)) (p_DEFAULT_TABLE raw)
        (nullish_or (b_ALLOWED_TABLES b) (g_ALLOWED_TABLES raw)) (p_ALLOWED_TABLES raw).

Definition no_bindings : Bindings := mkBindings None None None None.

Definition bindings0 : Bindings :=
  mkBindings (Some "key") (Some "appBase") None None.

Definition raw_nothing : RawEnv :=
  mkRaw None None None None None None None None.

(** The same search arguments with another table and another offset. *)
Definition with_table_offset (a : SearchArgs) (t : option string) (off : option string)
    : SearchArgs :=
  mkArgs (a_q a) t (a_allTables a) (a_fieldsToSearch a) (a_maxRecords a)
         (a_pageSize a) off.

(** * Properties *)

(** ** Running binds and handlers *)

Lemma run_bind {A B : Type} (o : Outside) (p : Prog A) (f : A -> Prog B) (w : World) :
  run o (bind p f) w =
  match run o p w with
  | (Ok a, w1) => run o (f a) w1
  | (Err e, w1) => (Err e, w1)
  end.
Proof.
  revert w. induction p as [a|e|rq k IH|k IH|k IH|c k IH|ms k IH]; intros w; simpl; auto.
Qed.

Lemma run_catch {A : Type} (o : Outside) (p : Prog A) (h : Error -> Prog A) (w : World) :
  run o (catch p h) w =
  match run o p w with
  | (Ok a, w1) => (Ok a, w1)
  | (Err e, w1) => run o (h e) w1
  end.
Proof.
  revert w. induction p as [a|e|rq k IH|k IH|k IH|c k IH|ms k IH]; intros w; simpl; auto.
Qed.

Lemma run_fetch_json (o : Outside) (rq : Request) (w : World) :
  run o (fetch_json rq) w =
  (match respond o (trace w) rq with
   | NetworkError => Err FetchFailed
   | BadJson => Err SyntaxError
   | Parsed b => Ok b
   end, record (EvFetch rq (respond o (trace w) rq)) w).
Proof.
  unfold fetch_json. simpl. destruct (respond o (trace w) rq); reflexivity.
Qed.

(** ** The identifier pattern *)

Lemma is_alnum_spec (c : ascii) : is_alnum c = true <-> alnum_char c.
Proof.
  unfold is_alnum, in_range, alnum_char.
  change (nat_of_ascii "a") with 97. change (nat_of_ascii "z") with 122.
  change (nat_of_ascii "A") with 65. change (nat_of_ascii "Z") with 90.
  change (nat_of_ascii "0") with 48. change (nat_of_ascii "9") with 57.
  cbv zeta.
  rewrite !orb_true_iff, !andb_true_iff, !Nat.leb_le. tauto.
Qed.

Lemma string_forallb_all_chars (s : string) :
  string_forallb is_alnum s = true <-> all_chars alnum_char s.
Proof.
  induction s as [|c s IH]; simpl.
  - split; [constructor | reflexivity].
  - rewrite andb_true_iff, is_alnum_spec, IH. split.
    + intros [Hc Hs]. by constructor.
    + intros H. inversion H; subst. by split.
Qed.

Lemma is_table_id_unfold (c1 c2 c3 : ascii) (rest : string) :
  is_table_id (String c1 (String c2 (String c3 rest))) =
  Ascii.eqb c1 "t" && Ascii.eqb c2 "b" && Ascii.eqb c3 "l" &&
  ((10 <=? String.length rest) && string_forallb is_alnum rest).
Proof.
  destruct c1 as [[] [] [] [] [] [] [] []]; try reflexivity;
  destruct c2 as [[] [] [] [] [] [] [] []]; try reflexivity;
  destruct c3 as [[] [] [] [] [] [] [] []]; reflexivity.
Qed.

(** The test of the code accepts exactly the identifier-shaped strings. *)
Lemma is_table_id_spec (s : string) :
  is_table_id s = true <-> identifier_shaped s.
Proof.
  split.
  - destruct s as [|c1 [|c2 [|c3 rest]]]; try discriminate.
    + destruct c1 as [[] [] [] [] [] [] [] []]; discriminate.
    + destruct c1 as [[] [] [] [] [] [] [] []]; try discriminate;
      destruct c2 as [[] [] [] [] [] [] [] []]; discriminate.
    + rewrite is_table_id_unfold, !andb_true_iff, !Ascii.eqb_eq, Nat.leb_le.
      intros [[[-> ->] ->] [Hlen Hall]].
      exists rest. split; [reflexivity|]. split; [exact Hlen|].
      by apply string_forallb_all_chars.
  - intros (suffix & -> & Hlen & Hall).
    change ("tbl" +:+ suffix) with (String "t" (String "b" (String "l" suffix))).
    rewrite is_table_id_unfold, !andb_true_iff, !Ascii.eqb_eq, Nat.leb_le.
    repeat split; try reflexivity; [exact Hlen|].
    by apply string_forallb_all_chars.
Qed.

(** C2.  On an input of the identifier shape (tbl, then at least ten
    letters or digits) resolveTableId is the program that returns its input:
    it performs no operation at all, so it issues no call and neither reads
    nor assigns tableCache, and every run leaves the world as it was. *)
Theorem resolve_identifier_unchanged (env : ResolvedEnv) (s : string) :
  identifier_shaped s ->
  resolveTableId env s = Ret s /\
  (forall (o : Outside) (w : World), run o (resolveTableId env s) w = (Ok s, w)) /\
  (forall (log : list Event) (r : Result string),
     Runs (resolveTableId env s) log r -> log = [] /\ r = Ok s).
Proof.
  intros Hs. apply is_table_id_spec in Hs.
  assert (Hret : resolveTableId env s = Ret s).
  { unfold resolveTableId. by rewrite Hs. }
  rewrite Hret. split; [reflexivity|]. split; [reflexivity|].
  intros log r Hruns. by inversion Hruns.
Qed.

Lemma resolve_identifier_unchanged_example :
  resolveTableId env0 "tblA1b2C3d4E5" = Ret "tblA1b2C3d4E5".
Proof.
  apply (resolve_identifier_unchanged env0 "tblA1b2C3d4E5").
  apply is_table_id_spec. reflexivity.
Defined.

(** ** Escaping and the formula *)

Lemma append_cons (c : ascii) (s1 s2 : string) :
  String c s1 +:+ s2 = String c (s1 +:+ s2).
Proof. reflexivity. Qed.

Lemma append_nil_l (s : string) : EmptyString +:+ s = s.
Proof. reflexivity. Qed.

Ltac push_append := repeat (rewrite append_cons || rewrite append_nil_l).



Lemma backslash_not_dquote : Ascii.eqb backslash dquote = false.
Proof. reflexivity. Qed.

(** The two passes of the code amount to escaping each character on its
    own: the second pass finds no double quote that the first one wrote. *)
Lemma escapeForFormula_each (s : string) : escapeForFormula s = escape_each s.
Proof.
  unfold escapeForFormula, str1. induction s as [|c s IH]; [reflexivity|].
  simpl. unfold escape_char, str1.
  destruct (Ascii.eqb c backslash) eqn:Eb.
  - push_append. simpl. by rewrite IH.
  - simpl. destruct (Ascii.eqb c dquote) eqn:Eq; push_append; by rewrite IH.
Qed.

(** Reading back an escaped query: the literal ends at the quote that
    follows the query, wherever the query has quotes or backslashes, and the
    text read is the query. *)
Lemma read_literal_escaped (q rest : string) :
  read_literal (escapeForFormula q +:+ String dquote rest) = Some (q, rest).
Proof.
  rewrite escapeForFormula_each.
  induction q as [|c q IH]; simpl; push_append; [reflexivity|].
  unfold escape_char, str1.
  destruct (Ascii.eqb c backslash) eqn:Eb.
  - apply Ascii.eqb_eq in Eb. subst c. push_append. simpl. by rewrite IH.
  - destruct (Ascii.eqb c dquote) eqn:Eq.
    + apply Ascii.eqb_eq in Eq. subst c. push_append. simpl. by rewrite IH.
    + push_append. simpl. rewrite Eq, Eb. by rewrite IH.
Qed.





Lemma buildFormulaFromFields_shape (q : string) (fields : list string) :
  fields <> [] ->
  buildFormulaFromFields q fields =
  "OR(" +:+ String.concat "," (map (search_part (escapeForFormula q)) fields) +:+ ")".
Proof.
  intros Hne. unfold buildFormulaFromFields. cbv zeta.
  destruct (decide _) as [Hlen|]; [|reflexivity].
  rewrite length_map in Hlen. by destruct fields.
Qed.




(** ** Refreshing the directory *)

Lemma truthy_Some (s : string) : truthy (Some s) = true <-> s <> EmptyString.
Proof.
  simpl. rewrite negb_true_iff. apply String.eqb_neq.
Qed.







Lemma run_refreshTableCache (env : ResolvedEnv) (o : Outside) (w : World) :
  run o (refreshTableCache env) w =
  let rq := ReqMeta (AIRTABLE_BASE_ID env) in
  let r := respond o (trace w) rq in
  match r with
  | Parsed data =>
      let z := clock o (trace w ++ [EvFetch rq r]) in
      let c := mkCache z (refreshed_map env data) in
      (Ok c, mkWorld (Some c) (trace w ++ [EvFetch rq r; EvNow z; EvSetCache c]))
  | NetworkError => (Err FetchFailed, record (EvFetch rq r) w)
  | BadJson => (Err SyntaxError, record (EvFetch rq r) w)
  end.
Proof.
  unfold refreshTableCache, fetch_json. simpl.
  destruct (respond o (trace w) (ReqMeta (AIRTABLE_BASE_ID env))) eqn:Er;
    simpl; try reflexivity.
  by rewrite <- !app_assoc.
Qed.


(** The allowlist of env0 names Tasks with a stale identifier; after a
    refresh against outside0 the identifier of Tasks is the live one. *)
Example refresh_service_wins :
  match run outside0 (refreshTableCache env0) world0 with
  | (Ok c, w') =>
      seed_map env0 !! "Tasks" = Some "tblSEEDSEEDSEED1" /\
      byName c !! "Tasks" = Some "tblLIVELIVELIVE1" /\
      tableCache w' = Some c /\ ts c = 1%Z /\
      List.filter is_set_cache (trace w') = [EvSetCache c]
  | _ => False
  end.
Proof. vm_compute. repeat split. Qed.

(** ** Resolving a name *)

Lemma since_app (w w' : World) (l : list Event) :
  trace w' = trace w ++ l -> since w w' = l.
Proof. intros H. unfold since. rewrite H. apply drop_app_length. Qed.



Lemma run_now (o : Outside) (w : World) :
  run o now w = (Ok (clock o (trace w)), record (EvNow (clock o (trace w))) w).
Proof. reflexivity. Qed.

Lemma run_get_cache (o : Outside) (w : World) :
  run o get_cache w = (Ok (tableCache w), w).
Proof. reflexivity. Qed.

Lemma run_ensure_fresh (env : ResolvedEnv) (o : Outside) (w : World) :
  run o (ensure_fresh env) w =
  let z := clock o (trace w) in
  let w0 := record (EvNow z) w in
  if stale (tableCache w) z then
    match run o (refreshTableCache env) w0 with
    | (Ok _, w1) => (Ok tt, w1)
    | (Err e, w1) => (Err e, w1)
    end
  else (Ok tt, w0).
Proof.
  unfold ensure_fresh. rewrite run_bind, run_now, run_bind, run_get_cache.
  cbv zeta. change (tableCache (record _ w)) with (tableCache w).
  destruct (stale (tableCache w) (clock o (trace w))); [|reflexivity].
  rewrite run_bind. by destruct (run o (refreshTableCache env) _) as [[c|e] w1].
Qed.


Lemma run_read_byName (o : Outside) (name : string) (w : World) :
  run o (read_byName name) w =
  (match tableCache w with
   | None => Err TypeError
   | Some c => Ok (found (byName c) name)
   end, w).
Proof.
  unfold read_byName. rewrite run_bind, run_get_cache.
  by destruct (tableCache w).
Qed.



(** Projects is created after the first refresh: the forced refresh finds
    it, two refreshes in all. *)
Example resolve_new_table :
  let out := run outside0 (resolveTableId env0 "Projects") world0 in
  fst out = Ok "tblPROJPROJPROJ1" /\ meta_calls (trace (snd out)) = 2.
Proof. vm_compute. split; reflexivity. Qed.

(** Ghost is never listed: two refreshes, then the error that names it. *)
Example resolve_unknown_table :
  let out := run outside0 (resolveTableId env0 "Ghost") world0 in
  fst out = Err (JsError "Table not found by name: Ghost") /\
  meta_calls (trace (snd out)) = 2.
Proof. vm_compute. split; reflexivity. Qed.

(** Tasks is in the snapshot of the first refresh: one refresh. *)
Example resolve_known_table :
  let out := run outside0 (resolveTableId env0 "Tasks") world0 in
  fst out = Ok "tblLIVELIVELIVE1" /\ meta_calls (trace (snd out)) = 1.
Proof. vm_compute. split; reflexivity. Qed.

(** A fresh snapshot that knows the name: no refresh at all. *)
Example resolve_fresh_hit :
  let out := run outside0 (resolveTableId env0 "Tasks") world_fresh in
  fst out = Ok "tblLIVELIVELIVE1" /\ meta_calls (trace (snd out)) = 0.
Proof. vm_compute. split; reflexivity. Qed.

(** ** Searching one table *)

Lemma run_arr_or_empty {A : Type} (o : Outside) (a : JArr A) (w : World) :
  run o (arr_or_empty a) w =
  (match a with
   | Absent => Ok []
   | NotArray => Err TypeError
   | Arr l => Ok l
   end, w).
Proof. by destruct a. Qed.

Lemma run_to_hits (o : Outside) (t : string) (recs : list (option AirRecord)) (w : World) :
  run o (to_hits t recs) w =
  (match mapM (to_hit t) recs with
   | Some hs => Ok hs
   | None => Err TypeError
   end, w).
Proof. unfold to_hits. by destruct (mapM (to_hit t) recs). Qed.

(** What follows the formula in searchOneTable: the listing call, whose
    answer alone decides the result. *)
Lemma run_listing (o : Outside) (base t : string) (qs : ListQuery) (w : World) :
  run o (data <- fetch_json (ReqList base t qs) ;;
         recs <- arr_or_empty (b_records data) ;;
         hs <- to_hits t recs ;;
         Ret (mkOut hs (b_offset data))) w =
  (search_outcome t (respond o (trace w) (ReqList base t qs)),
   record (EvFetch (ReqList base t qs) (respond o (trace w) (ReqList base t qs))) w).
Proof.
  rewrite run_bind, run_fetch_json. unfold search_outcome.
  destruct (respond o (trace w) (ReqList base t qs)) as [| |data]; try reflexivity.
  rewrite run_bind, run_arr_or_empty.
  destruct (b_records data) as [| |recs]; try reflexivity.
  rewrite run_bind, run_to_hits.
  by destruct (mapM (to_hit t) recs).
Qed.

Lemma run_searchOneTable (env : ResolvedEnv) (p : SearchParams) (o : Outside) (w : World) :
  let fr := run o (buildSearchFormula env (p_tableNameOrId p) (p_q p) (p_fieldsToSearch p)) w in
  let rq := ReqList (p_baseId p) (p_tableNameOrId p)
              (list_query (p_maxRecords p) (p_pageSize p) (p_offset p)
                          (formula_or_empty (fst fr))) in
  run o (searchOneTable env p) w =
  (search_outcome (p_tableNameOrId p) (respond o (trace (snd fr)) rq),
   record (EvFetch rq (respond o (trace (snd fr)) rq)) (snd fr)).
Proof.
  cbv zeta. unfold searchOneTable. rewrite run_bind, run_catch.
  destruct (run o (buildSearchFormula env _ _ _) w) as [[f|e] w1];
    cbn [fst snd run formula_or_empty]; apply run_listing.
Qed.

Lemma list_query_filter (m : Z) (ps : option Z) (off : option string) (formula : string) :
  qs_filterByFormula (list_query m ps off formula) =
  if String.eqb formula EmptyString then None else Some formula.
Proof.
  unfold list_query, truthy_val. simpl. by destruct (String.eqb formula EmptyString).
Qed.

(** C9.  searchOneTable always goes on to its listing call, right after the
    construction of the formula and whatever that construction did: when it
    threw, the formula is the empty string.  The result of the search is
    what the answer to the listing call gives, so no failure of the formula
    reaches the caller.  Whenever the formula is empty (a failure, or no
    field to search in), the listing call carries no filterByFormula
    parameter; otherwise it carries the formula. *)
Theorem search_degrades_to_unfiltered (env : ResolvedEnv) (p : SearchParams)
    (o : Outside) (w : World) :
  let fr := run o (buildSearchFormula env (p_tableNameOrId p) (p_q p) (p_fieldsToSearch p)) w in
  let formula := formula_or_empty (fst fr) in
  let query := list_query (p_maxRecords p) (p_pageSize p) (p_offset p) formula in
  let rq := ReqList (p_baseId p) (p_tableNameOrId p) query in
  let r := respond o (trace (snd fr)) rq in
  run o (searchOneTable env p) w =
    (search_outcome (p_tableNameOrId p) r, record (EvFetch rq r) (snd fr)) /\
  (forall e, fst fr = Err e -> formula = EmptyString) /\
  buildFormulaFromFields (p_q p) [] = EmptyString /\
  (formula = EmptyString -> qs_filterByFormula query = None) /\
  (formula <> EmptyString -> qs_filterByFormula query = Some formula).
Proof.
  cbv zeta. split; [apply run_searchOneTable|].
  split; [by intros e ->|]. split; [reflexivity|].
  rewrite list_query_filter. split.
  - by intros ->.
  - intros Hne. apply String.eqb_neq in Hne. by rewrite Hne.
Qed.

(** A name that no refresh finds: the construction of the formula throws,
    and the search still lists the table, unfiltered. *)
Example search_unknown_table_unfiltered :
  let p := mkParams "appBase" "Ghost" "x" 5 None None None in
  fst (run outside0 (buildSearchFormula env0 "Ghost" "x" None) world0) =
    Err (JsError "Table not found by name: Ghost") /\
  fst (run outside0 (searchOneTable env0 p) world0) = Ok (mkOut [] None) /\
  last (trace (snd (run outside0 (searchOneTable env0 p) world0))) =
    Some (EvFetch (ReqList "appBase" "Ghost" (mkQuery 5 None None None))
                  (Parsed (mkBody Absent (Arr []) None))).
Proof. vm_compute. repeat split. Qed.

(** ** Discovering the fields to search in *)








(** Thirteen text fields: twelve are kept, the first twelve. *)
Example pick_fields_cap :
  pick_fields (map (fun n => mkField (Some n) (Some "email"))
                 ["a"; "b"; "c"; "d"; "e"; "f"; "g"; "h"; "i"; "j"; "k"; "l"; "m"]) =
  ["a"; "b"; "c"; "d"; "e"; "f"; "g"; "h"; "i"; "j"; "k"; "l"].
Proof. reflexivity. Qed.

(** ** The single-table branch *)

Lemma run_search_table (env : ResolvedEnv) (a : SearchArgs) (t : string)
    (o : Outside) (w : World) :
  run o (search_table env a t) w =
  match run o (searchOneTable env
                 (mkParams (AIRTABLE_BASE_ID env) t (a_q a) (a_maxRecords a)
                           (a_pageSize a) (a_offset a) (a_fieldsToSearch a))) w with
  | (Ok out, w') => (Ok (JsonTable (a_q a) t (hits out) (offset out)), w')
  | (Err e, w') => (Err e, w')
  end.
Proof. unfold search_table. by rewrite run_bind. Qed.





Example search_first_table_result :
  fst (run outside0 (search env0 args0 in_turn_scheds) world0) =
  Ok (JsonTable "x" "Tasks" [] None).
Proof. vm_compute. reflexivity. Qed.

Example search_empty_base_note :
  fst (run outside_empty (search env0 args0 in_turn_scheds) world0) =
  Ok (JsonNote "No tables found in base").
Proof. vm_compute. reflexivity. Qed.

(** ** Tasks seen from inside *)

(** Every run is a run seen from inside, with the events it added. *)
Lemma run_Runs {A : Type} (o : Outside) (p : Prog A) (w : World) :
  exists log, Runs p log (fst (run o p w)) /\
              trace (snd (run o p w)) = trace w ++ log.
Proof.
  revert w. induction p as [a|e|rq k IH|k IH|k IH|c k IH|ms k IH]; intros w; simpl.
  - exists []. split; [constructor | by rewrite app_nil_r].
  - exists []. split; [constructor | by rewrite app_nil_r].
  - destruct (IH (respond o (trace w) rq) (record (EvFetch rq (respond o (trace w) rq)) w))
      as (log & Hr & Ht).
    eexists. split; [by constructor|]. rewrite Ht. simpl. by rewrite <- app_assoc.
  - destruct (IH (clock o (trace w)) (record (EvNow (clock o (trace w))) w))
      as (log & Hr & Ht).
    eexists. split; [by constructor|]. rewrite Ht. simpl. by rewrite <- app_assoc.
  - destruct (IH (tableCache w) w) as (log & Hr & Ht).
    exists log. split; [by econstructor | done].
  - destruct (IH (mkWorld (Some c) (trace w ++ [EvSetCache c]))) as (log & Hr & Ht).
    eexists. split; [by constructor|]. rewrite Ht. simpl. by rewrite <- app_assoc.
  - destruct (IH (record (EvSleep ms) w)) as (log & Hr & Ht).
    eexists. split; [by constructor|]. rewrite Ht. simpl. by rewrite <- app_assoc.
Qed.

Lemma Runs_bind_inv {A B : Type} (p : Prog A) (f : A -> Prog B)
    (log : list Event) (res : Result B) :
  Runs (bind p f) log res ->
  (exists e, res = Err e /\ Runs p log (Err e)) \/
  (exists a l1 l2, log = l1 ++ l2 /\ Runs p l1 (Ok a) /\ Runs (f a) l2 res).
Proof.
  revert log.
  induction p as [a|e|rq k IH|k IH|k IH|c k IH|ms k IH]; intros log H; simpl in H.
  - right. exists a, [], log. repeat split; [constructor | done].
  - inversion H; subst. left. exists e. split; [done | constructor].
  - inversion H as [| |? ? r log' ? H'| | | |]; subst.
    destruct (IH r _ H') as [(e & -> & Hp)|(a & l1 & l2 & -> & Hp & Hf)].
    + left. exists e. split; [done | by constructor].
    + right. exists a, (EvFetch rq r :: l1), l2. repeat split; [by constructor | done].
  - inversion H as [| | |? z log' ? H'| | |]; subst.
    destruct (IH z _ H') as [(e & -> & Hp)|(a & l1 & l2 & -> & Hp & Hf)].
    + left. exists e. split; [done | by constructor].
    + right. exists a, (EvNow z :: l1), l2. repeat split; [by constructor | done].
  - inversion H as [| | | |? c log' ? H'| |]; subst.
    destruct (IH c _ H') as [(e & -> & Hp)|(a & l1 & l2 & -> & Hp & Hf)].
    + left. exists e. split; [done | by econstructor].
    + right. exists a, l1, l2. repeat split; [by econstructor | done].
  - inversion H as [| | | | |? ? log' ? H'|]; subst.
    destruct (IH _ H') as [(e & -> & Hp)|(a & l1 & l2 & -> & Hp & Hf)].
    + left. exists e. split; [done | by constructor].
    + right. exists a, (EvSetCache c :: l1), l2. repeat split; [by constructor | done].
  - inversion H as [| | | | | |? ? log' ? H']; subst.
    destruct (IH _ H') as [(e & -> & Hp)|(a & l1 & l2 & -> & Hp & Hf)].
    + left. exists e. split; [done | by constructor].
    + right. exists a, (EvSleep ms :: l1), l2. repeat split; [by constructor | done].
Qed.

Lemma Runs_catch_inv {A : Type} (p : Prog A) (h : Error -> Prog A)
    (log : list Event) (res : Result A) :
  Runs (catch p h) log res ->
  (exists a, res = Ok a /\ Runs p log (Ok a)) \/
  (exists e l1 l2, log = l1 ++ l2 /\ Runs p l1 (Err e) /\ Runs (h e) l2 res).
Proof.
  revert log.
  induction p as [a|e|rq k IH|k IH|k IH|c k IH|ms k IH]; intros log H; simpl in H.
  - inversion H; subst. left. exists a. split; [done | constructor].
  - right. exists e, [], log. repeat split; [constructor | done].
  - inversion H as [| |? ? r log' ? H'| | | |]; subst.
    destruct (IH r _ H') as [(a & -> & Hp)|(e & l1 & l2 & -> & Hp & Hf)].
    + left. exists a. split; [done | by constructor].
    + right. exists e, (EvFetch rq r :: l1), l2. repeat split; [by constructor | done].
  - inversion H as [| | |? z log' ? H'| | |]; subst.
    destruct (IH z _ H') as [(a & -> & Hp)|(e & l1 & l2 & -> & Hp & Hf)].
    + left. exists a. split; [done | by constructor].
    + right. exists e, (EvNow z :: l1), l2. repeat split; [by constructor | done].
  - inversion H as [| | | |? c log' ? H'| |]; subst.
    destruct (IH c _ H') as [(a & -> & Hp)|(e & l1 & l2 & -> & Hp & Hf)].
    + left. exists a. split; [done | by econstructor].
    + right. exists e, l1, l2. repeat split; [by econstructor | done].
  - inversion H as [| | | | |? ? log' ? H'|]; subst.
    destruct (IH _ H') as [(a & -> & Hp)|(e & l1 & l2 & -> & Hp & Hf)].
    + left. exists a. split; [done | by constructor].
    + right. exists e, (EvSetCache c :: l1), l2. repeat split; [by constructor | done].
  - inversion H as [| | | | | |? ? log' ? H']; subst.
    destruct (IH _ H') as [(a & -> & Hp)|(e & l1 & l2 & -> & Hp & Hf)].
    + left. exists a. split; [done | by constructor].
    + right. exists e, (EvSleep ms :: l1), l2. repeat split; [by constructor | done].
Qed.

Lemma Quiet_bind {A B : Type} (p : Prog A) (f : A -> Prog B) :
  Quiet p -> (forall a, Quiet (f a)) -> Quiet (bind p f).
Proof. induction 1; intros Hf; simpl; try constructor; auto. Qed.

Lemma Quiet_catch {A : Type} (p : Prog A) (h : Error -> Prog A) :
  Quiet p -> (forall e, Quiet (h e)) -> Quiet (catch p h).
Proof. induction 1; intros Hh; simpl; try constructor; auto. Qed.

Lemma Quiet_fetch_meta (base : string) : Quiet (fetch_json (ReqMeta base)).
Proof. constructor; [reflexivity|]. intros []; constructor. Qed.

Lemma Quiet_arr_or_empty {A : Type} (a : JArr A) : Quiet (arr_or_empty a).
Proof. destruct a; constructor. Qed.

Lemma Quiet_now : Quiet now.
Proof. repeat constructor. Qed.

Lemma Quiet_get_cache : Quiet get_cache.
Proof. repeat constructor. Qed.

Lemma Quiet_set_cache (c : TableCache) : Quiet (set_cache c).
Proof. repeat constructor. Qed.

Create HintDb quiet.
#[local] Hint Resolve Quiet_fetch_meta Quiet_arr_or_empty Quiet_now Quiet_get_cache
  Quiet_set_cache : quiet.
#[local] Hint Constructors Quiet : quiet.

Ltac quiet :=
  repeat first
    [ apply Quiet_bind; [|intros]
    | apply Quiet_catch; [|intros]
    | progress auto with quiet
    | match goal with
      | |- Quiet (match ?x with _ => _ end) => destruct x
      | |- Quiet (if ?x then _ else _) => destruct x
      end ].

Lemma Quiet_refresh (env : ResolvedEnv) : Quiet (refreshTableCache env).
Proof. unfold refreshTableCache. quiet. Qed.

Lemma Quiet_read_byName (name : string) : Quiet (read_byName name).
Proof. unfold read_byName. quiet. Qed.

#[local] Hint Resolve Quiet_refresh Quiet_read_byName : quiet.

Lemma Quiet_resolve (env : ResolvedEnv) (name : string) : Quiet (resolveTableId env name).
Proof. unfold resolveTableId, ensure_fresh. quiet. Qed.

#[local] Hint Resolve Quiet_resolve : quiet.

Lemma Quiet_buildSearchFormula (env : ResolvedEnv) (t q : string)
    (fs : option (list string)) :
  Quiet (buildSearchFormula env t q fs).
Proof. unfold buildSearchFormula. destruct fs as [[|f fs]|]; quiet. Qed.

(** A quiet program leaves no listing of records and no pause. *)
Lemma Runs_Quiet {A : Type} (p : Prog A) (log : list Event) (res : Result A) :
  Runs p log res -> Quiet p ->
  List.filter is_list_fetch log = [] /\ sleeps log = [].
Proof.
  induction 1 as [a|e|rq k r log res H IH|k z log res H IH|k c log res H IH
                 |c k log res H IH|ms k log res H IH];
    intros Hq; inversion Hq as [| |? ? Hrq Hk|? Hk|? Hk|? ? Hk]; subst; simpl; auto.
  - destruct rq; try discriminate; by apply IH.
Qed.

Lemma Runs_Ret_inv {A : Type} (a : A) (log : list Event) (res : Result A) :
  Runs (Ret a) log res -> log = [] /\ res = Ok a.
Proof. intros H. by inversion H. Qed.

Lemma Runs_Throw_inv {A : Type} (e : Error) (log : list Event) (res : Result A) :
  Runs (Throw e) log res -> log = [] /\ res = Err e.
Proof. intros H. by inversion H. Qed.

Lemma Runs_listing (base t : string) (qs : ListQuery) (log : list Event)
    (res : Result SearchOut) :
  Runs (data <- fetch_json (ReqList base t qs) ;;
        recs <- arr_or_empty (b_records data) ;;
        hs <- to_hits t recs ;;
        Ret (mkOut hs (b_offset data))) log res ->
  exists ans, log = [EvFetch (ReqList base t qs) ans] /\ res = search_outcome t ans.
Proof.
  simpl. intros H.
  inversion H as [| |? ? ans log' ? H'| | | |]; subst.
  exists ans. unfold search_outcome.
  destruct ans as [| |data]; simpl in H'.
  - apply Runs_Throw_inv in H' as [-> ->]. done.
  - apply Runs_Throw_inv in H' as [-> ->]. done.
  - destruct (b_records data) as [| |recs]; simpl in H'.
    + apply Runs_Ret_inv in H' as [-> ->]. done.
    + apply Runs_Throw_inv in H' as [-> ->]. done.
    + unfold to_hits in H'. destruct (mapM (to_hit t) recs); simpl in H'.
      * apply Runs_Ret_inv in H' as [-> ->]. done.
      * apply Runs_Throw_inv in H' as [-> ->]. done.
Qed.

(** A search of one table, seen from inside: calls that list no records and
    no pause while the formula is built, then the listing call of the table,
    whose answer decides the result. *)
Lemma Runs_searchOneTable (env : ResolvedEnv) (p : SearchParams)
    (log : list Event) (res : Result SearchOut) :
  Runs (searchOneTable env p) log res ->
  exists pre formula ans,
    log = pre ++ [EvFetch (ReqList (p_baseId p) (p_tableNameOrId p)
                    (list_query (p_maxRecords p) (p_pageSize p) (p_offset p) formula))
                  ans] /\
    List.filter is_list_fetch pre = [] /\ sleeps pre = [] /\
    res = search_outcome (p_tableNameOrId p) ans.
Proof.
  unfold searchOneTable. intros H.
  assert (Hq : Quiet (catch (buildSearchFormula env (p_tableNameOrId p) (p_q p)
                               (p_fieldsToSearch p))
                            (fun _ => Ret EmptyString))).
  { apply Quiet_catch; [apply Quiet_buildSearchFormula | constructor]. }
  apply Runs_bind_inv in H as [(e & -> & Hp)|(formula & l1 & l2 & -> & Hp & Hl)].
  - exfalso.
    apply Runs_catch_inv in Hp as [(a & Ha & _)|(e' & l1 & l2 & _ & _ & Hh)];
      [discriminate|].
    by apply Runs_Ret_inv in Hh as [_ ?].
  - apply Runs_listing in Hl as (ans & -> & ->).
    destruct (Runs_Quiet _ _ _ Hp Hq) as [Hnl Hns].
    by exists l1, formula, ans.
Qed.

(** The same for a task of a federated search, whose failure is replaced by
    an empty list of hits. *)
Lemma Runs_table_task (env : ResolvedEnv) (a : SearchArgs) (t : string)
    (log : list Event) (res : Result SearchOut) :
  Runs (table_task env a t) log res ->
  exists pre formula ans,
    log = pre ++ [listing_event env a (mkListing t formula ans)] /\
    List.filter is_list_fetch pre = [] /\ sleeps pre = [] /\
    res = Ok (task_result t ans).
Proof.
  unfold table_task. intros H.
  apply Runs_catch_inv in H as [(out & -> & Hp)|(e & l1 & l2 & -> & Hp & Hh)].
  - apply Runs_searchOneTable in Hp as (pre & formula & ans & -> & Hnl & Hns & Hres).
    exists pre, formula, ans. repeat split; try done.
    unfold task_result. simpl in Hres. by rewrite <- Hres.
  - apply Runs_Ret_inv in Hh as [-> ->].
    apply Runs_searchOneTable in Hp as (pre & formula & ans & -> & Hnl & Hns & Hres).
    exists pre, formula, ans. rewrite app_nil_r. repeat split; try done.
    unfold task_result. simpl in Hres. by rewrite <- Hres.
Qed.

(** ** Promise.all under any schedule *)

Lemma concat_alter_app {A : Type} (evs : list A) (j : nat) (logs : list (list A)) :
  j < length logs ->
  Permutation (concat (alter (app evs) j logs)) (evs ++ concat logs).
Proof.
  revert j. induction logs as [|l logs IH]; intros j Hj; simpl in Hj; [lia|].
  destruct j as [|j]; simpl.
  - by rewrite <- app_assoc.
  - change (list_alter (app evs) j logs) with (alter (app evs) j logs).
    rewrite IH by lia. rewrite !app_assoc. apply Permutation_app_tail.
    apply Permutation_app_comm.
Qed.

Lemma Forall3_task_step {B : Type} (tasks : list (Prog B)) (j : nat) (p p' : Prog B)
    (evs : list Event) (logs : list (list Event)) (rs : list B) :
  tasks !! j = Some p ->
  (forall log r, Runs p' log (Ok r) -> Runs p (evs ++ log) (Ok r)) ->
  Forall3 (fun p log r => Runs p log (Ok r)) (<[j := p']> tasks) logs rs ->
  Forall3 (fun p log r => Runs p log (Ok r)) tasks (alter (app evs) j logs) rs.
Proof.
  intros Hj Hstep. revert j logs rs Hj.
  induction tasks as [|q tasks IH]; intros j logs rs Hj H; [discriminate|].
  destruct j as [|j]; simpl in *.
  - injection Hj as ->. inversion H; subst. constructor; auto.
  - inversion H; subst. constructor; auto.
Qed.

Lemma AllSettled_step {B : Type} (tasks : list (Prog B)) (j : nat) (p p' : Prog B)
    (evs suffix : list Event) (res : Result (list B)) :
  tasks !! j = Some p ->
  (forall log r, Runs p' log r -> Runs p (evs ++ log) r) ->
  AllSettled (<[j := p']> tasks) suffix res ->
  AllSettled tasks (evs ++ suffix) res.
Proof.
  intros Hj Hstep (logs & Hlen & Hperm & Hres).
  rewrite length_insert in Hlen.
  exists (alter (app evs) j logs). split; [by rewrite length_alter|]. split.
  - rewrite concat_alter_app by (rewrite Hlen; by eapply lookup_lt_Some).
    by apply Permutation_app_head.
  - destruct res as [rs|e].
    + eapply Forall3_task_step; eauto.
    + destruct Hres as (j' & q & log & Hq & Hruns).
      destruct (decide (j = j')) as [<-|Hne].
      * rewrite list_lookup_insert_eq in Hq by (by eapply lookup_lt_Some).
        injection Hq as <-. exists j, p, (evs ++ log). auto.
      * rewrite list_lookup_insert_ne in Hq by done.
        exists j', q, log. auto.
Qed.

Lemma concat_nils {A B : Type} (l : list B) :
  concat (map (fun _ => @nil A) l) = [].
Proof. induction l; simpl; auto. Qed.

(** The tasks in turn. *)
Lemma in_turn_settled {B : Type} (o : Outside) (tasks : list (Prog B)) (w : World) :
  exists suffix,
    trace (snd (run o (in_turn tasks) w)) = trace w ++ suffix /\
    AllSettled tasks suffix (fst (run o (in_turn tasks) w)).
Proof.
  revert w. induction tasks as [|p ps IH]; intros w.
  - exists []. split; [simpl; by rewrite app_nil_r|].
    exists []. repeat split; [constructor | constructor].
  - simpl. rewrite run_bind.
    destruct (run_Runs o p w) as (log & Hruns & Htr).
    destruct (run o p w) as [[b|e] w1]; cbn [fst snd] in *.
    + rewrite run_bind.
      destruct (IH w1) as (suffix & Htr' & logs & Hlen & Hperm & Hres).
      destruct (run o (in_turn ps) w1) as [[bs|e] w2]; cbn [fst snd run] in *.
      * exists (log ++ suffix). split; [by rewrite Htr', Htr, <- app_assoc|].
        exists (log :: logs). split; [simpl; by rewrite Hlen|].
        split; [simpl; by apply Permutation_app_head|]. by constructor.
      * exists (log ++ suffix). split; [by rewrite Htr', Htr, <- app_assoc|].
        exists (log :: logs). split; [simpl; by rewrite Hlen|].
        split; [simpl; by apply Permutation_app_head|].
        destruct Hres as (j & q & lg & Hq & Hr). by exists (S j), q, lg.
    + exists log. split; [done|].
      exists (log :: map (fun _ => []) ps).
      split; [simpl; by rewrite length_map|].
      split; [simpl; by rewrite concat_nils, app_nil_r|].
      by exists 0, p, log.
Qed.

(** Whatever the schedule, Promise.all settles with the values of the tasks
    in the order of the tasks, each task having seen a log of its own. *)
Lemma promise_all_settled {B : Type} (o : Outside) (sched : list nat)
    (tasks : list (Prog B)) (w : World) :
  exists suffix,
    trace (snd (run o (promise_all sched tasks) w)) = trace w ++ suffix /\
    AllSettled tasks suffix (fst (run o (promise_all sched tasks) w)).
Proof.
  revert tasks w. induction sched as [|j sched IH]; intros tasks w.
  - apply in_turn_settled.
  - simpl. unfold advance.
    destruct (tasks !! j) as [[a|e|rq k|k|k|c k|ms k]|] eqn:Hj; try apply IH.
    + simpl.
      destruct (IH (<[j := k (respond o (trace w) rq)]> tasks)
                   (record (EvFetch rq (respond o (trace w) rq)) w))
        as (suffix & Htr & Hs).
      exists ([EvFetch rq (respond o (trace w) rq)] ++ suffix).
      split; [rewrite Htr; simpl; by rewrite <- app_assoc|].
      eapply AllSettled_step; [exact Hj | | exact Hs].
      intros log r Hr. by constructor.
    + simpl.
      destruct (IH (<[j := k (clock o (trace w))]> tasks)
                   (record (EvNow (clock o (trace w))) w))
        as (suffix & Htr & Hs).
      exists ([EvNow (clock o (trace w))] ++ suffix).
      split; [rewrite Htr; simpl; by rewrite <- app_assoc|].
      eapply AllSettled_step; [exact Hj | | exact Hs].
      intros log r Hr. by constructor.
    + simpl.
      destruct (IH (<[j := k (tableCache w)]> tasks) w) as (suffix & Htr & Hs).
      exists ([] ++ suffix). split; [done|].
      eapply AllSettled_step; [exact Hj | | exact Hs].
      intros log r Hr. by econstructor.
    + simpl.
      destruct (IH (<[j := k]> tasks) (mkWorld (Some c) (trace w ++ [EvSetCache c])))
        as (suffix & Htr & Hs).
      exists ([EvSetCache c] ++ suffix).
      split; [rewrite Htr; simpl; by rewrite <- app_assoc|].
      eapply AllSettled_step; [exact Hj | | exact Hs].
      intros log r Hr. by constructor.
    + simpl.
      destruct (IH (<[j := k]> tasks) (record (EvSleep ms) w)) as (suffix & Htr & Hs).
      exists ([EvSleep ms] ++ suffix).
      split; [rewrite Htr; simpl; by rewrite <- app_assoc|].
      eapply AllSettled_step; [exact Hj | | exact Hs].
      intros log r Hr. by constructor.
Qed.

(** ** One batch *)

Lemma Permutation_list_filter {A : Type} (f : A -> bool) (l1 l2 : list A) :
  Permutation l1 l2 -> Permutation (List.filter f l1) (List.filter f l2).
Proof.
  induction 1 as [|x l1 l2 H IH|x y l|l1 l2 l3 H1 IH1 H2 IH2]; simpl.
  - constructor.
  - destruct (f x); [by constructor | done].
  - destruct (f x), (f y); try reflexivity. apply perm_swap.
  - by etrans.
Qed.

Lemma sleeps_app (l1 l2 : list Event) : sleeps (l1 ++ l2) = sleeps l1 ++ sleeps l2.
Proof. apply omap_app. Qed.

(** The logs of the tasks of a batch, put together: one listing call per
    table, no pause, and the values of the tasks are those of the listings. *)
Lemma table_tasks_settled (env : ResolvedEnv) (a : SearchArgs) (batch : list string)
    (logs : list (list Event)) (rs : list SearchOut) :
  Forall3 (fun p log r => Runs p log (Ok r)) (map (table_task env a) batch) logs rs ->
  exists ls : list Listing,
    map l_table ls = batch /\
    rs = map listing_result ls /\
    List.filter is_list_fetch (concat logs) = map (listing_event env a) ls /\
    sleeps (concat logs) = [].
Proof.
  revert logs rs. induction batch as [|t batch IH]; intros logs rs H; simpl in H.
  - inversion H; subst. by exists [].
  - inversion H as [|? ? ? ? ? ? Hruns Hrest]; subst.
    destruct (IH _ _ Hrest) as (ls & Hts & Hrs & Hfilter & Hsleeps).
    apply Runs_table_task in Hruns as (pre & formula & ans & -> & Hnl & Hns & Hres).
    injection Hres as ->.
    exists (mkListing t formula ans :: ls). simpl.
    rewrite Hts, Hrs. repeat split.
    + rewrite !List.filter_app, Hnl, Hfilter. reflexivity.
    + rewrite !sleeps_app, Hns, Hsleeps. reflexivity.
Qed.

(** A batch under any schedule: Promise.all settles, never rejects, with
    the values of the tables in the order of the batch. *)
Lemma batch_settled (env : ResolvedEnv) (a : SearchArgs) (o : Outside)
    (sched : list nat) (batch : list string) (w : World) :
  exists (ls : list Listing) (seg : list Event),
    map l_table ls = batch /\
    fst (run o (promise_all sched (map (table_task env a) batch)) w) =
      Ok (map listing_result ls) /\
    trace (snd (run o (promise_all sched (map (table_task env a) batch)) w)) =
      trace w ++ seg /\
    batch_trace env a ls seg.
Proof.
  destruct (promise_all_settled o sched (map (table_task env a) batch) w)
    as (seg & Htr & logs & Hlen & Hperm & Hres).
  destruct (fst (run o (promise_all sched (map (table_task env a) batch)) w))
    as [rs|e].
  - destruct (table_tasks_settled env a batch logs rs Hres)
      as (ls & Hts & Hrs & Hfilter & Hsleeps).
    exists ls, seg. repeat split; try done.
    + by rewrite Hrs.
    + apply Permutation_nil. symmetry. rewrite <- Hsleeps.
      unfold sleeps. by rewrite Hperm.
    + rewrite <- Hfilter. by apply Permutation_list_filter.
  - exfalso. destruct Hres as (j & p & log & Hp & Hruns).
    apply list_lookup_fmap_Some in Hp as (t & Hp & _). subst p.
    apply Runs_table_task in Hruns as (pre & formula & ans & _ & _ & _ & Hok).
    discriminate.
Qed.

(** ** The partition into batches *)

Lemma batch_count_3 (n : nat) : 3 * batch_count 3 n + (n + 2) mod 3 = n + 2.
Proof.
  unfold batch_count. replace (n + 3 - 1) with (n + 2) by lia.
  symmetry. apply Nat.div_mod_eq.
Qed.

Lemma batch_count_lt (n b : nat) : b < batch_count 3 n <-> 3 * b < n.
Proof.
  pose proof (batch_count_3 n). pose proof (Nat.mod_upper_bound (n + 2) 3). lia.
Qed.

Lemma loop_starts_0 (i n : nat) : loop_starts 0 i n = [].
Proof. simpl. by destruct (i <? n). Qed.

Lemma loop_starts_S (fuel i n : nat) :
  loop_starts (S fuel) i n =
  if i <? n then i :: loop_starts fuel (i + BATCH) n else [].
Proof. reflexivity. Qed.

(** The loop visits the starts 0, BATCH, 2 BATCH, ... of the batches. *)
Lemma loop_starts_spec (n fuel b : nat) :
  n - 3 * b <= fuel ->
  loop_starts fuel (3 * b) n = map (Nat.mul 3) (seq b (batch_count 3 n - b)).
Proof.
  revert b. induction fuel as [|fuel IH]; intros b Hfuel.
  - rewrite loop_starts_0.
    assert (Hc : ~ b < batch_count 3 n) by (rewrite batch_count_lt; lia).
    by replace (batch_count 3 n - b) with 0 by lia.
  - rewrite loop_starts_S. destruct (3 * b <? n) eqn:E.
    + apply Nat.ltb_lt in E.
      assert (Hc : b < batch_count 3 n) by (rewrite batch_count_lt; lia).
      replace (batch_count 3 n - b) with (S (batch_count 3 n - S b)) by lia.
      cbn [seq map]. f_equal. unfold BATCH.
      replace (3 * b + 3) with (3 * S b) by lia.
      rewrite IH by lia. reflexivity.
    + apply Nat.ltb_ge in E.
      assert (Hc : ~ b < batch_count 3 n) by (rewrite batch_count_lt; lia).
      by replace (batch_count 3 n - b) with 0 by lia.
Qed.

Lemma loop_batches {A : Type} (l : list A) :
  map (fun k => slice l k (k + BATCH)) (loop_starts (length l) 0 (length l)) =
  batches BATCH l.
Proof.
  change 0 with (3 * 0) at 1. rewrite loop_starts_spec by lia.
  unfold batches, BATCH. rewrite Nat.sub_0_r, map_map.
  apply map_ext. intros b. unfold slice.
  replace (3 * b + 3 - 3 * b) with 3 by lia. by rewrite (Nat.mul_comm 3 b).
Qed.

Lemma concat_batches_take {A : Type} (k m : nat) (l : list A) :
  concat (map (fun b => take k (drop (b * k) l)) (seq 0 m)) = take (m * k) l.
Proof.
  induction m as [|m IH]; [reflexivity|].
  rewrite seq_S, map_app, concat_app, IH. simpl. rewrite app_nil_r.
  rewrite take_take_drop. f_equal. lia.
Qed.

(** The batches are a partition of the list into consecutive runs of three,
    the last one holding what is left. *)
Lemma batches_spec {A : Type} (l : list A) :
  concat (batches 3 l) = l /\
  length (batches 3 l) = batch_count 3 (length l) /\
  (forall b batch, batches 3 l !! b = Some batch ->
     batch = take 3 (drop (3 * b) l) /\
     length batch = Nat.min 3 (length l - 3 * b) /\
     (S b < batch_count 3 (length l) -> length batch = 3) /\
     (S b = batch_count 3 (length l) ->
        length batch = if length l mod 3 =? 0 then 3 else length l mod 3)).
Proof.
  split; [|split].
  - unfold batches. rewrite concat_batches_take. apply take_ge.
    pose proof (batch_count_3 (length l)).
    pose proof (Nat.mod_upper_bound (length l + 2) 3). lia.
  - unfold batches. by rewrite length_map, length_seq.
  - intros b batch Hb. unfold batches in Hb.
    apply list_lookup_fmap_Some in Hb as (b' & -> & Hb').
    apply lookup_seq in Hb' as [-> Hlt].
    replace ((0 + b) * 3) with (3 * b) by lia.
    assert (Hlen : length (take 3 (drop (3 * b) l)) = Nat.min 3 (length l - 3 * b)).
    { by rewrite length_take, length_drop. }
    split; [reflexivity|]. split; [exact Hlen|]. rewrite Hlen.
    pose proof (batch_count_3 (length l)) as Hc.
    pose proof (Nat.mod_upper_bound (length l + 2) 3) as Hm.
    pose proof (Nat.div_mod_eq (length l) 3) as Hd.
    pose proof (Nat.mod_upper_bound (length l) 3) as Hm'.
    split.
    + intros Hs. apply batch_count_lt in Hs. lia.
    + intros Hs. destruct (length l mod 3 =? 0) eqn:E.
      * apply Nat.eqb_eq in E. lia.
      * apply Nat.eqb_neq in E. lia.
Qed.

(** ** The loop over the batches *)

Lemma push_hits_concat (merged : list Hit) (results : list SearchOut) :
  push_hits merged results = merged ++ concat (map hits results).
Proof.
  unfold push_hits. revert merged.
  induction results as [|r results IH]; intros merged; simpl.
  - by rewrite app_nil_r.
  - by rewrite IH, app_assoc.
Qed.

Lemma batch_loop_0 (env : ResolvedEnv) (a : SearchArgs) (scheds : nat -> list nat)
    (tables : list string) (i : nat) (merged : list Hit) :
  batch_loop env a scheds tables 0 i merged = Ret merged.
Proof. simpl. by destruct (i <? length tables). Qed.

Lemma batch_loop_S (env : ResolvedEnv) (a : SearchArgs) (scheds : nat -> list nat)
    (tables : list string) (fuel i : nat) (merged : list Hit) :
  batch_loop env a scheds tables (S fuel) i merged =
  if i <? length tables then
    (results <- promise_all (scheds i)
                  (map (table_task env a) (slice tables i (i + BATCH))) ;;
     (if i + BATCH <? length tables then sleep PAUSE else Ret tt) ;;;
     batch_loop env a scheds tables fuel (i + BATCH) (push_hits merged results))
  else Ret merged.
Proof. reflexivity. Qed.

Lemma Rounds_nil_inv (env : ResolvedEnv) (a : SearchArgs) (suffix : list Event) :
  Rounds env a [] suffix -> suffix = [].
Proof. intros H. by inversion H. Qed.

(** With fuel for every round, the loop runs the batches in order, pauses
    between two batches, and appends the hits of the tables in the order of
    the tables. *)
Lemma batch_loop_rounds (env : ResolvedEnv) (a : SearchArgs) (scheds : nat -> list nat)
    (o : Outside) (tables : list string) (fuel i : nat) (merged : list Hit) (w : World) :
  length tables - i <= fuel ->
  exists (lss : list (list Listing)) (suffix : list Event),
    fst (run o (batch_loop env a scheds tables fuel i merged) w) =
      Ok (merged ++ concat (map listing_hits (concat lss))) /\
    trace (snd (run o (batch_loop env a scheds tables fuel i merged) w)) =
      trace w ++ suffix /\
    Rounds env a lss suffix /\
    map (map l_table) lss =
      map (fun k => slice tables k (k + BATCH)) (loop_starts fuel i (length tables)).
Proof.
  revert i merged w. induction fuel as [|fuel IH]; intros i merged w Hfuel.
  - rewrite batch_loop_0, loop_starts_0. exists [], []. simpl.
    rewrite !app_nil_r. repeat split. constructor.
  - rewrite batch_loop_S, loop_starts_S.
    destruct (i <? length tables) eqn:Ei.
    2:{ exists [], []. simpl. rewrite !app_nil_r. repeat split. constructor. }
    apply Nat.ltb_lt in Ei. rewrite run_bind.
    destruct (batch_settled env a o (scheds i) (slice tables i (i + BATCH)) w)
      as (ls & seg & Hts & Hres & Htr & Hbt).
    destruct (run o (promise_all (scheds i) _) w) as [res1 w1]; cbn [fst snd] in *.
    subst res1. rewrite run_bind.
    destruct (i + BATCH <? length tables) eqn:Enext.
    + apply Nat.ltb_lt in Enext.
      change (run o (sleep PAUSE) w1) with (Ok tt, record (EvSleep PAUSE) w1).
      cbv beta iota.
      destruct (IH (i + BATCH) (push_hits merged (map listing_result ls))
                   (record (EvSleep PAUSE) w1)) as (lss & suffix & Hr & Ht & HR & Hm);
        [unfold BATCH in *; lia|].
      exists (ls :: lss), (seg ++ EvSleep PAUSE :: suffix).
      split; [|split; [|split]].
      * rewrite Hr, push_hits_concat. f_equal. simpl.
        rewrite map_app, concat_app, <- app_assoc. f_equal. f_equal.
        unfold listing_hits. by rewrite map_map.
      * rewrite Ht. simpl. rewrite Htr, <- !app_assoc. reflexivity.
      * apply rounds_more; try done.
        intros ->. destruct fuel as [|fuel]; [unfold BATCH in *; lia|].
        rewrite loop_starts_S in Hm.
        apply Nat.ltb_lt in Enext. rewrite Enext in Hm. discriminate.
      * simpl. by rewrite Hts, Hm.
    + apply Nat.ltb_ge in Enext.
      change (run o (Ret tt) w1) with (Ok tt, w1). cbv beta iota.
      destruct (IH (i + BATCH) (push_hits merged (map listing_result ls)) w1)
        as (lss & suffix & Hr & Ht & HR & Hm); [unfold BATCH in *; lia|].
      assert (Hstarts : loop_starts fuel (i + BATCH) (length tables) = []).
      { destruct fuel; [apply loop_starts_0|]. rewrite loop_starts_S.
        apply Nat.ltb_ge in Enext. by rewrite Enext. }
      rewrite Hstarts in Hm. simpl in Hm. apply map_eq_nil in Hm. subst lss.
      apply Rounds_nil_inv in HR. subst suffix.
      exists [ls], seg. split; [|split; [|split]].
      * rewrite Hr, push_hits_concat. simpl. rewrite !app_nil_r.
        unfold listing_hits. by rewrite map_map.
      * rewrite Ht, app_nil_r. exact Htr.
      * by constructor.
      * simpl. by rewrite Hts, Hstarts.
Qed.

Lemma Rounds_sleeps (env : ResolvedEnv) (a : SearchArgs)
    (lss : list (list Listing)) (rest : list Event) :
  Rounds env a lss rest -> sleeps rest = repeat PAUSE (length lss - 1).
Proof.
  induction 1 as [|ls seg [Hs _]|ls lss seg rest Hne [Hs _] HR IH]; simpl.
  - reflexivity.
  - exact Hs.
  - rewrite sleeps_app, Hs. simpl. rewrite IH.
    destruct lss as [|ls' lss]; [done|]. simpl. by rewrite Nat.sub_0_r.
Qed.

Lemma Rounds_listings (env : ResolvedEnv) (a : SearchArgs)
    (lss : list (list Listing)) (rest : list Event) :
  Rounds env a lss rest ->
  Permutation (List.filter is_list_fetch rest) (map (listing_event env a) (concat lss)).
Proof.
  induction 1 as [|ls seg [_ Hp]|ls lss seg rest Hne [_ Hp] HR IH]; simpl.
  - constructor.
  - by rewrite app_nil_r.
  - rewrite List.filter_app, map_app. simpl. by apply Permutation_app.
Qed.

Lemma Rounds_listing_In (env : ResolvedEnv) (a : SearchArgs)
    (lss : list (list Listing)) (rest : list Event) (l : Listing) :
  Rounds env a lss rest -> In l (concat lss) -> In (listing_event env a l) rest.
Proof.
  intros HR Hl. apply Rounds_listings in HR.
  assert (Hin : In (listing_event env a l) (List.filter is_list_fetch rest)).
  { eapply Permutation_in; [symmetry; exact HR|]. by apply in_map. }
  by apply List.filter_In in Hin as [Hin _].
Qed.

(** The federated branch as a whole: the listing of the tables, then the
    rounds of the batches of the table references; it returns the hits of
    the tables in the order of the tables. *)
Lemma search_allTables_run (env : ResolvedEnv) (a : SearchArgs) (scheds : nat -> list nat)
    (o : Outside) (w : World) (data : Body) :
  a_allTables a = true ->
  respond o (trace w) (ReqMeta (AIRTABLE_BASE_ID env)) = Parsed data ->
  b_tables data <> NotArray ->
  exists (lss : list (list Listing)) (rest : list Event),
    fst (run o (search env a scheds) w) =
      Ok (JsonAllTables (a_q a) (concat (map listing_hits (concat lss)))) /\
    trace (snd (run o (search env a scheds) w)) =
      trace w ++ EvFetch (ReqMeta (AIRTABLE_BASE_ID env)) (Parsed data) :: rest /\
    Rounds env a lss rest /\
    map (map l_table) lss = batches BATCH (table_refs (listed_entries data)).
Proof.
  intros Hall Hresp Harr. unfold search, search_allTables. rewrite Hall.
  rewrite run_bind, run_fetch_json, Hresp.
  rewrite run_bind, run_arr_or_empty.
  assert (Hentries : match b_tables data with
                     | Absent => Ok []
                     | NotArray => Err TypeError
                     | Arr l => Ok l
                     end = Ok (listed_entries data)).
  { unfold listed_entries. by destruct (b_tables data). }
  rewrite Hentries. clear Hentries. rewrite run_bind.
  set (tables := table_refs (listed_entries data)).
  set (w0 := record (EvFetch (ReqMeta (AIRTABLE_BASE_ID env)) (Parsed data)) w).
  destruct (batch_loop_rounds env a scheds o tables (length tables) 0 [] w0)
    as (lss & rest & Hr & Ht & HR & Hm); [lia|].
  exists lss, rest.
  destruct (run o (batch_loop env a scheds tables (length tables) 0 []) w0)
    as [res w1]; cbn [fst snd] in *.
  subst res. cbn [run fst snd].
  split; [reflexivity|]. split; [|split; [done|]].
  - rewrite Ht. unfold w0. simpl. by rewrite <- app_assoc.
  - rewrite Hm. apply loop_batches.
Qed.

(** ** Federated search *)

(** C4.  A federated search lists the tables, then runs the batches of the
    partition of the table references into consecutive runs of BATCH = 3
    (the last batch holds what is left), one batch after the other: the
    trace is the trace of the first batch, a pause of 300 ms, the trace of
    the second batch, and so on, with no pause after the last batch, so
    that the pauses number the batches minus one.  Inside a batch the
    listing calls of its tables may come in any order (the schedule of the
    tasks is arbitrary), one call per table. *)
Theorem federated_batches_of_three (env : ResolvedEnv) (a : SearchArgs)
    (scheds : nat -> list nat) (o : Outside) (w : World) (data : Body) :
  a_allTables a = true ->
  respond o (trace w) (ReqMeta (AIRTABLE_BASE_ID env)) = Parsed data ->
  b_tables data <> NotArray ->
  let tables := table_refs (listed_entries data) in
  let n := length tables in
  exists (lss : list (list Listing)) (rest : list Event),
    since w (snd (run o (search env a scheds) w)) =
      EvFetch (ReqMeta (AIRTABLE_BASE_ID env)) (Parsed data) :: rest /\
    Rounds env a lss rest /\
    map (map l_table) lss = batches BATCH tables /\
    sleeps rest = repeat PAUSE (batch_count BATCH n - 1) /\
    PAUSE = 300%Z /\ BATCH = 3 /\
    concat (batches BATCH tables) = tables /\
    length (batches BATCH tables) = batch_count BATCH n /\
    (forall b batch, batches BATCH tables !! b = Some batch ->
       batch = take 3 (drop (3 * b) tables) /\
       length batch = Nat.min 3 (n - 3 * b) /\
       (S b < batch_count BATCH n -> length batch = 3) /\
       (S b = batch_count BATCH n ->
          length batch = if n mod 3 =? 0 then 3 else n mod 3)).
Proof.
  intros Hall Hresp Harr. cbv zeta.
  destruct (search_allTables_run env a scheds o w data Hall Hresp Harr)
    as (lss & rest & Hres & Htr & HR & Hm).
  destruct (batches_spec (table_refs (listed_entries data))) as (Hcat & Hlen & Hb).
  exists lss, rest.
  split; [by apply since_app|]. split; [done|]. split; [done|].
  split.
  { rewrite (Rounds_sleeps env a lss rest HR).
    rewrite <- (length_map (map l_table) lss), Hm. unfold BATCH. by rewrite Hlen. }
  split; [reflexivity|]. split; [reflexivity|]. by unfold BATCH.
Qed.

(** Seven tables: batches of three, three and one table, and two pauses. *)
Lemma federated_batches_of_three_example :
  exists (lss : list (list Listing)) (rest : list Event),
    Rounds env0 args_all lss rest /\
    map (map l_table) lss = [["T1"; "T2"; "T3"]; ["T4"; "T5"; "T6"]; ["T7"]] /\
    sleeps rest = [300%Z; 300%Z].
Proof.
  destruct (federated_batches_of_three env0 args_all reversed_scheds outside7 world0
              (mkBody (Arr seven_tables) Absent None) eq_refl eq_refl)
    as (lss & rest & _ & HR & Hm & Hs & _); [discriminate|].
  exists lss, rest. split; [exact HR|]. split; [exact Hm | exact Hs].
Defined.

(** The run itself, with the tasks of a batch scheduled in reverse: the
    calls of a batch come in reverse order, the pauses fall after the third
    and after the sixth call, and the hits come in the order of the tables,
    those of the six tables whose listing did not fail. *)
Example federated_seven_tables_run :
  let out := run outside7 (search env0 args_all reversed_scheds) world0 in
  fst out = Ok (JsonAllTables "x"
                  (map hit_of ["T1"; "T2"; "T3"; "T5"; "T6"; "T7"])) /\
  listed_tables (trace (snd out)) = ["T3"; "T2"; "T1"; "T6"; "T5"; "T4"; "T7"] /\
  map is_sleep (trace (snd out)) =
    [false; false; false; false; true; false; false; false; true; false] /\
  sleeps (trace (snd out)) = [300%Z; 300%Z].
Proof. vm_compute. repeat split. Qed.

Lemma listing_hits_failed (l : Listing) (e : Error) :
  search_outcome (l_table l) (l_answer l) = Err e -> listing_hits l = [].
Proof. intros H. unfold listing_hits, listing_result, task_result. by rewrite H. Qed.

Lemma listing_hits_ok (l : Listing) (out : SearchOut) :
  search_outcome (l_table l) (l_answer l) = Ok out -> listing_hits l = hits out.
Proof. intros H. unfold listing_hits, listing_result, task_result. by rewrite H. Qed.



(** The task of a table run on its own: whatever the construction of the
    formula did, the table is listed, and the answer to that call is the
    value of the task. *)
Lemma run_table_task (env : ResolvedEnv) (a : SearchArgs) (t : string)
    (o : Outside) (w : World) :
  let fr := run o (buildSearchFormula env t (a_q a) (a_fieldsToSearch a)) w in
  let rq := ReqList (AIRTABLE_BASE_ID env) t
              (list_query (a_maxRecords a) (a_pageSize a) None
                          (formula_or_empty (fst fr))) in
  run o (table_task env a t) w =
  (Ok (task_result t (respond o (trace (snd fr)) rq)),
   record (EvFetch rq (respond o (trace (snd fr)) rq)) (snd fr)).
Proof.
  cbv zeta. unfold table_task. rewrite run_catch, run_searchOneTable.
  cbn [p_baseId p_tableNameOrId p_q p_maxRecords p_pageSize p_offset p_fieldsToSearch].
  unfold task_result. by destruct (search_outcome t _).
Qed.

(** C5, as the code has it.  In a federated search whose listing of the
    tables arrived, the call succeeds whatever the searches of the tables
    do, under any schedule: there is one listing call per table reference,
    in the trace, and the merged list is made of the contributions of the
    tables, each decided by the answer to the listing call of the table
    alone: a table whose listing failed (the call rejected, the body was no
    JSON, the records were malformed) contributes the empty list and every
    other table contributes all the hits of its listing.  A failure to
    resolve the table while the formula is built is no failure of the
    search of the table: it is swallowed before, and the table is listed
    without a filter. *)
Theorem federated_failures_contained (env : ResolvedEnv) (a : SearchArgs)
    (scheds : nat -> list nat) (o : Outside) (w : World) (data : Body) :
  a_allTables a = true ->
  respond o (trace w) (ReqMeta (AIRTABLE_BASE_ID env)) = Parsed data ->
  b_tables data <> NotArray ->
  exists (ls : list Listing) (merged : list Hit),
    fst (run o (search env a scheds) w) = Ok (JsonAllTables (a_q a) merged) /\
    map l_table ls = table_refs (listed_entries data) /\
    (forall l, In l ls ->
       In (listing_event env a l) (trace (snd (run o (search env a scheds) w)))) /\
    (forall l e, In l ls ->
       search_outcome (l_table l) (l_answer l) = Err e -> listing_hits l = []) /\
    (forall l out h, In l ls ->
       search_outcome (l_table l) (l_answer l) = Ok out ->
       In h (hits out) -> In h merged) /\
    (forall h, In h merged -> exists l, In l ls /\ In h (listing_hits l)) /\
    (forall (t : string) (w' : World),
       let fr := run o (buildSearchFormula env t (a_q a) (a_fieldsToSearch a)) w' in
       let query := list_query (a_maxRecords a) (a_pageSize a) None
                               (formula_or_empty (fst fr)) in
       let rq := ReqList (AIRTABLE_BASE_ID env) t query in
       let r := respond o (trace (snd fr)) rq in
       run o (table_task env a t) w' =
         (Ok (task_result t r), record (EvFetch rq r) (snd fr)) /\
       (forall e, fst fr = Err e -> qs_filterByFormula query = None)).
Proof.
  intros Hall Hresp Harr.
  destruct (search_allTables_run env a scheds o w data Hall Hresp Harr)
    as (lss & rest & Hres & Htr & HR & Hm).
  exists (concat lss), (concat (map listing_hits (concat lss))).
  split; [exact Hres|]. split.
  { rewrite <- (proj1 (batches_spec (table_refs (listed_entries data)))).
    change 3 with BATCH. rewrite <- Hm. clear.
    induction lss as [|ls lss IH]; simpl; [done|]. by rewrite map_app, IH. }
  split.
  { intros l Hl. rewrite Htr. apply in_or_app. right. right.
    by apply (Rounds_listing_In env a lss rest l HR). }
  split; [intros l e _; apply listing_hits_failed|].
  split; [|split].
  - intros l out h Hl Hout Hh. apply in_concat.
    exists (listing_hits l). split; [by apply in_map|].
    by rewrite (listing_hits_ok l out Hout).
  - intros h Hh. apply in_concat in Hh as (hs & Hhs & Hh).
    apply in_map_iff in Hhs as (l & <- & Hl). by exists l.
  - intros t w'. cbv zeta. split; [apply run_table_task|].
    intros e He. by rewrite He.
Qed.

(** Seven tables of which the fourth fails: the call succeeds, with one
    listing per table. *)
Lemma federated_failures_contained_example :
  exists (ls : list Listing) (merged : list Hit),
    fst (run outside7 (search env0 args_all reversed_scheds) world0) =
      Ok (JsonAllTables "x" merged) /\
    map l_table ls = seven_names.
Proof.
  destruct (federated_failures_contained env0 args_all reversed_scheds outside7 world0
              (mkBody (Arr seven_tables) Absent None) eq_refl eq_refl)
    as (ls & merged & Hres & Hts & _); [discriminate|].
  exists ls, merged. split; [exact Hres | exact Hts].
Defined.

(** The same base searched with the tasks of a batch in turn and the fields
    discovered from the schema (which has none): the fourth table fails, the
    hits of the first three and of the last three tables are all there. *)
Example federated_fourth_table_fails :
  let out := run outside7 (search env0 args_auto in_turn_scheds) world0 in
  respond outside7 [] (ReqList "appBase" "T4" (mkQuery 5 None None None)) = NetworkError /\
  fst out = Ok (JsonAllTables "x"
                  (map hit_of ["T1"; "T2"; "T3"; "T5"; "T6"; "T7"])) /\
  listed_tables (trace (snd out)) = seven_names.
Proof. vm_compute. repeat split. Qed.

(** Against C5 as first stated (a resolution failure, or a network error,
    of a table replaced by an empty hit list): with no explicit fields the
    task of T1 resolves the name; no refresh finds it, or the refresh fails
    on the network, so the resolution throws and the construction of the
    formula fails; the search of T1 goes on unfiltered and its hit is in
    the merged list. *)
Lemma resolution_failure_keeps_hits :
  let w1 := record (EvFetch (ReqMeta "appBase")
                      (Parsed (mkBody (Arr [t1_entry]) Absent None))) world0 in
  let search_with later :=
    fst (run (outside_unresolved later) (search env0 args_auto in_turn_scheds) world0) in
  fst (run (outside_unresolved no_tables) (resolveTableId env0 "T1") w1) =
    Err (JsError "Table not found by name: T1") /\
  fst (run (outside_unresolved no_tables) (buildSearchFormula env0 "T1" "x" None) w1) =
    Err (JsError "Table not found by name: T1") /\
  search_with no_tables = Ok (JsonAllTables "x" [hit_of "T1"]) /\
  search_with no_tables <> Ok (JsonAllTables "x" []) /\
  fst (run (outside_unresolved NetworkError) (resolveTableId env0 "T1") w1) =
    Err FetchFailed /\
  search_with NetworkError = Ok (JsonAllTables "x" [hit_of "T1"]).
Proof. vm_compute. repeat split. discriminate. Qed.



(** * Further properties of the code *)

(** ** The resolver *)

Lemma found_Some (m : gmap string string) (name i : string) :
  found m name = Some i <-> m !! name = Some i /\ i <> EmptyString.
Proof.
  unfold found, truthy_val. destruct (m !! name) as [j|]; [|by split; [|intros []]].
  destruct (truthy (Some j)) eqn:E.
  - apply truthy_Some in E. split.
    + by intros [= <-].
    + by intros [[= <-] _].
  - split; [done|]. intros [[= <-] Hne]. apply truthy_Some in Hne. congruence.
Qed.

Lemma not_shaped_test (name : string) :
  ~ identifier_shaped name -> is_table_id name = false.
Proof.
  intros H. destruct (is_table_id name) eqn:E; [|reflexivity].
  by apply is_table_id_spec in E.
Qed.

(** The run of resolveTableId on a name, step by step. *)
Lemma run_resolveTableId (env : ResolvedEnv) (o : Outside) (w : World) (name : string) :
  is_table_id name = false ->
  run o (resolveTableId env name) w =
  match run o (ensure_fresh env) w with
  | (Err e, w1) => (Err e, w1)
  | (Ok _, w1) =>
      match tableCache w1 with
      | None => (Err TypeError, w1)
      | Some c1 =>
          match found (byName c1) name with
          | Some i => (Ok i, w1)
          | None =>
              match run o (refreshTableCache env) w1 with
              | (Err e, w2) => (Err e, w2)
              | (Ok _, w2) =>
                  match tableCache w2 with
                  | None => (Err TypeError, w2)
                  | Some c2 =>
                      match found (byName c2) name with
                      | Some i2 => (Ok i2, w2)
                      | None => (Err (JsError (not_found_message name)), w2)
                      end
                  end
              end
          end
      end
  end.
Proof.
  intros Hid. unfold resolveTableId. rewrite Hid, run_bind.
  destruct (run o (ensure_fresh env) w) as [[u|e] w1]; [|reflexivity].
  rewrite run_bind, run_read_byName.
  destruct (tableCache w1) as [c1|]; [|reflexivity].
  destruct (found (byName c1) name) as [i|]; [reflexivity|].
  rewrite run_bind.
  destruct (run o (refreshTableCache env) w1) as [[c2'|e2] w2]; [|reflexivity].
  rewrite run_bind, run_read_byName.
  destruct (tableCache w2) as [c2|]; [|reflexivity].
  by destruct (found (byName c2) name).
Qed.

Lemma resolve_ok_cache (env : ResolvedEnv) (o : Outside) (w w1 : World)
    (name id : string) :
  is_table_id name = false ->
  run o (resolveTableId env name) w = (Ok id, w1) ->
  exists c, tableCache w1 = Some c /\ found (byName c) name = Some id.
Proof.
  intros Hid. rewrite run_resolveTableId by done.
  destruct (run o (ensure_fresh env) w) as [[u|e] w']; [|discriminate].
  destruct (tableCache w') as [c1|] eqn:Ec1; [|discriminate].
  destruct (found (byName c1) name) as [i|] eqn:Ef.
  - intros [= <- <-]. by exists c1.
  - destruct (run o (refreshTableCache env) w') as [[c2'|e2] w2]; [|discriminate].
    destruct (tableCache w2) as [c2|] eqn:Ec2; [|discriminate].
    destruct (found (byName c2) name) as [i2|] eqn:Ef2; [|discriminate].
    intros [= <- <-]. by exists c2.
Qed.

Lemma resolve_fresh (env : ResolvedEnv) (o : Outside) (w : World) (c : TableCache)
    (name id : string) :
  is_table_id name = false ->
  tableCache w = Some c ->
  (clock o (trace w) - ts c <= TTL)%Z ->
  found (byName c) name = Some id ->
  run o (resolveTableId env name) w = (Ok id, record (EvNow (clock o (trace w))) w).
Proof.
  intros Hid Hc Hage Hf. rewrite run_resolveTableId by done.
  rewrite run_ensure_fresh. cbv zeta. rewrite Hc. unfold stale.
  assert (Hfresh : (TTL <? clock o (trace w) - ts c)%Z = false) by (apply Z.ltb_ge; lia).
  rewrite Hfresh. cbn [record tableCache]. by rewrite Hc, Hf.
Qed.

(** X1.  A name found in a snapshot that is at most 5 * 60_000 ms old is
    resolved from the snapshot: the only event is the reading of the clock,
    no call is made (whatever the state of the network) and tableCache is
    not assigned.  The bound is inclusive: a snapshot of that age exactly is
    still fresh. *)
Theorem resolve_fresh_snapshot_offline (env : ResolvedEnv) (o : Outside) (w : World)
    (c : TableCache) (name id : string) :
  ~ identifier_shaped name ->
  tableCache w = Some c ->
  byName c !! name = Some id ->
  id <> EmptyString ->
  (clock o (trace w) - ts c <= 300000)%Z ->
  run o (resolveTableId env name) w =
    (Ok id, mkWorld (Some c) (trace w ++ [EvNow (clock o (trace w))])).
Proof.
  intros Hshape Hc Hid Hne Hage.
  rewrite (resolve_fresh env o w c name id); try done.
  - unfold record. by rewrite Hc.
  - by apply not_shaped_test.
  - by apply found_Some.
Qed.

Lemma resolve_fresh_snapshot_offline_example :
  run (outside_down 300000) (resolveTableId env0 "Tasks") world_aged =
  (Ok "tblLIVELIVELIVE1",
   mkWorld (tableCache world_aged) [EvNow 300000%Z]).
Proof.
  apply (resolve_fresh_snapshot_offline env0 (outside_down 300000) world_aged
           (mkCache 0 {[ "Tasks" := "tblLIVELIVELIVE1" ]}) "Tasks" "tblLIVELIVELIVE1").
  - intros H. apply is_table_id_spec in H. discriminate H.
  - reflexivity.
  - vm_compute. reflexivity.
  - discriminate.
  - vm_compute. discriminate.
Defined.

(** One millisecond later the snapshot is stale and the resolver goes to the
    network first. *)
Example resolve_stale_snapshot_refreshes :
  fst (run (outside_down 300001) (resolveTableId env0 "Tasks") world_aged) = Err FetchFailed /\
  meta_calls (trace (snd (run (outside_down 300001) (resolveTableId env0 "Tasks") world_aged))) = 1.
Proof. vm_compute. split; reflexivity. Qed.



(** X3.  Resolving a name twice: when the first call returned an identifier
    and the second call starts while the snapshot is at most 5 * 60_000 ms
    old, the second call returns the same identifier without any call. *)
Theorem resolve_again_uses_snapshot (env : ResolvedEnv) (o : Outside) (w w1 : World)
    (name id : string) :
  ~ identifier_shaped name ->
  run o (resolveTableId env name) w = (Ok id, w1) ->
  (forall c, tableCache w1 = Some c -> (clock o (trace w1) - ts c <= 300000)%Z) ->
  run o (resolveTableId env name) w1 =
    (Ok id, record (EvNow (clock o (trace w1))) w1).
Proof.
  intros Hshape Hrun Hage.
  pose proof (not_shaped_test _ Hshape) as Hid.
  destruct (resolve_ok_cache env o w w1 name id Hid Hrun) as (c & Hc & Hf).
  apply (resolve_fresh env o w1 c name id); try done. by apply Hage.
Qed.

Lemma resolve_again_uses_snapshot_example :
  let w1 := snd (run outside0 (resolveTableId env0 "Projects") world0) in
  run outside0 (resolveTableId env0 "Projects") w1 =
  (Ok "tblPROJPROJPROJ1", record (EvNow (clock outside0 (trace w1))) w1).
Proof.
  apply (resolve_again_uses_snapshot env0 outside0 world0
           (snd (run outside0 (resolveTableId env0 "Projects") world0)) "Projects").
  - intros H. apply is_table_id_spec in H. discriminate H.
  - vm_compute. reflexivity.
  - intros c Hc. vm_compute in Hc. injection Hc as <-. vm_compute. discriminate.
Defined.





(** X5.  With no snapshot or a stale one, the resolver needs the metadata
    listing even for a name of the allowlist: when that call fails, the
    call throws the failure, tableCache keeps the value it had and nothing
    else is called. *)
Theorem resolve_needs_the_listing (env : ResolvedEnv) (o : Outside) (w : World)
    (name : string) :
  ~ identifier_shaped name ->
  stale (tableCache w) (clock o (trace w)) = true ->
  respond o (trace w ++ [EvNow (clock o (trace w))]) (ReqMeta (AIRTABLE_BASE_ID env)) =
    NetworkError ->
  run o (resolveTableId env name) w =
    (Err FetchFailed,
     mkWorld (tableCache w)
       (trace w ++ [EvNow (clock o (trace w));
                    EvFetch (ReqMeta (AIRTABLE_BASE_ID env)) NetworkError])).
Proof.
  intros Hshape Hstale Hdown.
  rewrite run_resolveTableId by (by apply not_shaped_test).
  rewrite run_ensure_fresh. cbv zeta. rewrite Hstale.
  rewrite run_refreshTableCache. cbv zeta. cbn [trace record]. rewrite Hdown.
  unfold record. cbn [trace tableCache]. by rewrite <- app_assoc.
Qed.

Lemma resolve_needs_the_listing_example :
  run (outside_down 0) (resolveTableId env0 "Tasks") world0 =
  (Err FetchFailed,
   mkWorld None [EvNow 0%Z; EvFetch (ReqMeta "appBase") NetworkError]).
Proof.
  apply (resolve_needs_the_listing env0 (outside_down 0) world0 "Tasks").
  - intros H. apply is_table_id_spec in H. discriminate H.
  - reflexivity.
  - reflexivity.
Defined.



(** ** The formula *)

Lemma string_length_append (s1 s2 : string) :
  String.length (s1 +:+ s2) = String.length s1 + String.length s2.
Proof. induction s1 as [|c s1 IH]; push_append; simpl; [reflexivity | by rewrite IH]. Qed.

Lemma escape_char_length (c : ascii) :
  String.length (escape_char c) =
  if Ascii.eqb c backslash || Ascii.eqb c dquote then 2 else 1.
Proof.
  unfold escape_char.
  destruct (Ascii.eqb c backslash); [reflexivity|].
  by destruct (Ascii.eqb c dquote).
Qed.

Lemma escape_each_length (q : string) :
  String.length q <= String.length (escape_each q) <= 2 * String.length q.
Proof.
  induction q as [|c q IH]; simpl; [lia|].
  rewrite string_length_append, escape_char_length.
  destruct (Ascii.eqb c backslash || Ascii.eqb c dquote); lia.
Qed.

Lemma escape_each_plain (q : string) :
  needs_no_escape q <-> escape_each q = q.
Proof.
  unfold needs_no_escape. split.
  - induction q as [|c q IH]; simpl; [reflexivity|].
    intros H. apply andb_true_iff in H as [Hc Hq].
    apply negb_true_iff, orb_false_iff in Hc as [Hb Hd].
    unfold escape_char. rewrite Hb, Hd. unfold str1. push_append.
    by rewrite IH.
  - intros H. assert (Hlen : String.length (escape_each q) = String.length q)
      by (by rewrite H).
    clear H. induction q as [|c q IH]; simpl in *; [reflexivity|].
    rewrite string_length_append, escape_char_length in Hlen.
    pose proof (escape_each_length q) as Hb.
    destruct (Ascii.eqb c backslash || Ascii.eqb c dquote); [lia|].
    simpl. apply IH. lia.
Qed.

(** X7.  escapeForFormula makes a query at most twice as long and never
    shorter; it returns the query itself exactly when the query has no
    backslash and no double quote; and two different queries never have the
    same escaped text. *)
Theorem escapeForFormula_faithful (q : string) :
  String.length q <= String.length (escapeForFormula q) <= 2 * String.length q /\
  (escapeForFormula q = q <-> needs_no_escape q) /\
  (forall q' : string, escapeForFormula q = escapeForFormula q' -> q = q').
Proof.
  split; [|split].
  - rewrite escapeForFormula_each. apply escape_each_length.
  - rewrite escapeForFormula_each. symmetry. apply escape_each_plain.
  - intros q' Heq.
    pose proof (read_literal_escaped q EmptyString) as H1.
    pose proof (read_literal_escaped q' EmptyString) as H2.
    rewrite Heq in H1. congruence.
Qed.

Lemma formula_empty_shape (q : string) (fields : list string) :
  buildFormulaFromFields q fields = EmptyString -> fields = [].
Proof.
  destruct fields as [|f fs]; [done|]. intros H.
  rewrite buildFormulaFromFields_shape in H by done.
  revert H. push_append. discriminate.
Qed.

(** X8.  buildFormulaFromFields gives the empty string exactly for the empty
    list of fields; so the query string of a listing lacks filterByFormula
    exactly when there is no field to search in. *)
Theorem formula_empty_iff_no_field (q : string) (fields : list string)
    (m : Z) (ps : option Z) (off : option string) :
  (buildFormulaFromFields q fields = EmptyString <-> fields = []) /\
  (qs_filterByFormula (list_query m ps off (buildFormulaFromFields q fields)) = None
   <-> fields = []).
Proof.
  assert (Hiff : buildFormulaFromFields q fields = EmptyString <-> fields = []).
  { split; [apply formula_empty_shape | by intros ->]. }
  split; [exact Hiff|].
  rewrite list_query_filter, <- Hiff.
  destruct (String.eqb_spec (buildFormulaFromFields q fields) EmptyString) as [He|Hne].
  - by split.
  - split; [discriminate | done].
Qed.

(** ** The search of one table *)

(** X9.  With a non-empty list of fields given by the caller, searchOneTable
    makes one call and nothing else: the listing of the table, filtered by
    the formula over these fields (which is not empty).  The clock is not
    read, tableCache is neither read nor assigned, no schema is fetched. *)
Theorem explicit_search_is_one_call (env : ResolvedEnv) (p : SearchParams)
    (o : Outside) (w : World) (fields : list string) :
  p_fieldsToSearch p = Some fields ->
  fields <> [] ->
  let formula := buildFormulaFromFields (p_q p) fields in
  let query := list_query (p_maxRecords p) (p_pageSize p) (p_offset p) formula in
  let rq := ReqList (p_baseId p) (p_tableNameOrId p) query in
  let r := respond o (trace w) rq in
  run o (searchOneTable env p) w =
    (search_outcome (p_tableNameOrId p) r,
     mkWorld (tableCache w) (trace w ++ [EvFetch rq r])) /\
  qs_filterByFormula query = Some formula /\
  formula <> EmptyString.
Proof.
  intros Hfs Hne. cbv zeta.
  assert (Hform : buildFormulaFromFields (p_q p) fields <> EmptyString).
  { intros H. apply Hne. by apply (formula_empty_shape (p_q p) fields). }
  split; [|split; [|exact Hform]].
  - rewrite run_searchOneTable. rewrite Hfs.
    destruct fields as [|f fs]; [done|]. reflexivity.
  - rewrite list_query_filter. apply String.eqb_neq in Hform. by rewrite Hform.
Qed.

Lemma explicit_search_is_one_call_example :
  trace (snd (run outside0 (searchOneTable env0 params0) world0)) =
  [EvFetch (ReqList "appBase" "Tasks"
              (mkQuery 5 None None (Some (buildFormulaFromFields "x" ["Title"]))))
           (Parsed (mkBody Absent (Arr []) None))].
Proof.
  rewrite (proj1 (explicit_search_is_one_call env0 params0 outside0 world0 ["Title"]
                    eq_refl ltac:(discriminate))).
  reflexivity.
Defined.

Lemma mapM_to_hit_inv (t : string) (l : list (option AirRecord)) (hs : list Hit) :
  mapM (to_hit t) l = Some hs ->
  exists recs, l = map Some recs /\
    hs = map (fun r => mkHit (r_id r) t (r_fields r) (r_createdTime r)) recs.
Proof.
  intros H. apply mapM_Some in H.
  induction H as [|x h l hs Hx _ IH]; [by exists []|].
  destruct IH as (recs & -> & ->).
  destruct x as [r|]; [|discriminate]. injection Hx as <-.
  by exists (r :: recs).
Qed.

Lemma search_outcome_Ok (t : string) (r : FetchResult) (out : SearchOut) :
  search_outcome t r = Ok out ->
  exists data recs,
    r = Parsed data /\
    offset out = b_offset data /\
    (b_records data = Absent /\ recs = [] \/ b_records data = Arr (map Some recs)) /\
    hits out = map (fun x => mkHit (r_id x) t (r_fields x) (r_createdTime x)) recs.
Proof.
  unfold search_outcome. destruct r as [| |data]; try discriminate.
  destruct (b_records data) as [| |l] eqn:Er; try discriminate.
  - intros [= <-]. exists data, []. repeat split; auto.
  - destruct (mapM (to_hit t) l) as [hs|] eqn:Em; [|discriminate].
    intros [= <-]. apply mapM_to_hit_inv in Em as (recs & -> & ->).
    exists data, recs. repeat split; auto.
Qed.

(** X10.  When searchOneTable returns, the last call of the run is the
    listing of the table under the reference the caller gave (a name stays
    a name, whatever identifier it resolved to), and that call was answered
    by a body.  There is one hit per record of the answer, in the order of
    the answer, carrying the id, the fields and the creation time of the
    record and the caller's table reference; a body without records (an
    error body of the service, say) gives no hit and no error.  The offset
    is the one of the answer. *)
Theorem search_result_mirrors_answer (env : ResolvedEnv) (p : SearchParams)
    (o : Outside) (w : World) (out : SearchOut) :
  fst (run o (searchOneTable env p) w) = Ok out ->
  exists (formula : string) (data : Body) (recs : list AirRecord),
    last (trace (snd (run o (searchOneTable env p) w))) =
      Some (EvFetch (ReqList (p_baseId p) (p_tableNameOrId p)
                       (list_query (p_maxRecords p) (p_pageSize p) (p_offset p) formula))
                    (Parsed data)) /\
    (b_records data = Absent /\ recs = [] \/ b_records data = Arr (map Some recs)) /\
    hits out =
      map (fun x => mkHit (r_id x) (p_tableNameOrId p) (r_fields x) (r_createdTime x)) recs /\
    offset out = b_offset data.
Proof.
  rewrite run_searchOneTable. cbn [fst snd]. intros Hout.
  apply search_outcome_Ok in Hout as (data & recs & Hr & Hoff & Hrecs & Hhits).
  eexists _, data, recs. split; [|by repeat split].
  cbn [trace record]. rewrite last_snoc. by rewrite Hr.
Qed.

Lemma search_result_mirrors_answer_example :
  exists (formula : string) (data : Body) (recs : list AirRecord),
    last (trace (snd (run outside_two (searchOneTable env0 params0) world0))) =
      Some (EvFetch (ReqList "appBase" "Tasks" (list_query 5 None None formula))
                    (Parsed data)) /\
    (b_records data = Absent /\ recs = [] \/ b_records data = Arr (map Some recs)) /\
    [mkHit (Some "rec1") "Tasks" (Some "{}") (Some "2024-01-01");
     mkHit (Some "rec2") "Tasks" None None] =
      map (fun x => mkHit (r_id x) "Tasks" (r_fields x) (r_createdTime x)) recs /\
    Some "itr/rec2" = b_offset data.
Proof.
  apply (search_result_mirrors_answer env0 params0 outside_two world0
           (mkOut [mkHit (Some "rec1") "Tasks" (Some "{}") (Some "2024-01-01");
                   mkHit (Some "rec2") "Tasks" None None] (Some "itr/rec2"))).
  vm_compute. reflexivity.
Defined.

(** ** The search tool *)

(** X11.  A table argument that is the empty string switches the default
    table off: in single-table mode the handler does not look at
    DEFAULT_TABLE (the program is the same whatever its value) and starts
    with the listing of the tables, to fall back to the first one.  The
    fetch tool, given the same argument, answers that a table is required,
    default table or not. *)
Theorem empty_table_argument_skips_default (base : string) (d d' : option string)
    (allowed : option (gmap string string)) (a : SearchArgs)
    (scheds : nat -> list nat) (id : string) :
  a_allTables a = false ->
  a_table a = Some EmptyString ->
  search (mkEnv base d allowed) a scheds = search (mkEnv base d' allowed) a scheds /\
  search (mkEnv base d allowed) a scheds =
    (j0 <- fetch_json (ReqMeta base) ;;
     match first_table_ref j0 with
     | Some t => search_table (mkEnv base d allowed) a t
     | None => Ret (JsonNote no_tables_note)
     end) /\
  fetch_tool (mkEnv base d allowed) (Some EmptyString) id =
    Ret (TextContent table_required_message).
Proof.
  intros Hall Ht. unfold search, search_single. rewrite Hall, Ht.
  repeat split.
Qed.

Lemma empty_table_argument_skips_default_example :
  search (mkEnv "appBase" (Some "Tasks") None) args_empty_table in_turn_scheds =
  search (mkEnv "appBase" None None) args_empty_table in_turn_scheds.
Proof.
  apply (empty_table_argument_skips_default "appBase" (Some "Tasks") None None
           args_empty_table in_turn_scheds "rec1" eq_refl eq_refl).
Defined.

(** With the default table Tasks and the table argument empty, the search
    goes to the first table of the listing, not to Tasks. *)
Example empty_table_argument_run :
  fst (run outside7 (search (mkEnv "appBase" (Some "Tasks") None)
                        args_empty_table in_turn_scheds) world0) =
  Ok (JsonTable "x" "T1" [hit_of "T1"] None).
Proof. vm_compute. reflexivity. Qed.

(** ** Federated search: the listing of the tables *)

(** The federated branch after its listing of the tables arrived. *)
Lemma run_search_allTables (env : ResolvedEnv) (a : SearchArgs) (scheds : nat -> list nat)
    (o : Outside) (w : World) (data : Body) :
  a_allTables a = true ->
  respond o (trace w) (ReqMeta (AIRTABLE_BASE_ID env)) = Parsed data ->
  b_tables data <> NotArray ->
  let tables := table_refs (listed_entries data) in
  let w0 := record (EvFetch (ReqMeta (AIRTABLE_BASE_ID env)) (Parsed data)) w in
  run o (search env a scheds) w =
  match run o (batch_loop env a scheds tables (length tables) 0 []) w0 with
  | (Ok merged, w1) => (Ok (JsonAllTables (a_q a) merged), w1)
  | (Err e, w1) => (Err e, w1)
  end.
Proof.
  intros Hall Hresp Harr. cbv zeta. unfold search, search_allTables. rewrite Hall.
  rewrite run_bind, run_fetch_json, Hresp.
  rewrite run_bind, run_arr_or_empty. unfold listed_entries.
  destruct (b_tables data) as [| |l]; [|done|]; by rewrite run_bind.
Qed.

(** X12.  A federated search over a base whose listing shows no table to
    visit returns the empty list of hits after that one call: no table is
    searched and no pause is made. *)
Theorem federated_no_table (env : ResolvedEnv) (a : SearchArgs)
    (scheds : nat -> list nat) (o : Outside) (w : World) (data : Body) :
  a_allTables a = true ->
  respond o (trace w) (ReqMeta (AIRTABLE_BASE_ID env)) = Parsed data ->
  b_tables data <> NotArray ->
  table_refs (listed_entries data) = [] ->
  run o (search env a scheds) w =
    (Ok (JsonAllTables (a_q a) []),
     record (EvFetch (ReqMeta (AIRTABLE_BASE_ID env)) (Parsed data)) w).
Proof.
  intros Hall Hresp Harr Hnone.
  rewrite (run_search_allTables env a scheds o w data) by done.
  cbv zeta. rewrite Hnone. reflexivity.
Qed.

Lemma federated_no_table_example :
  run outside_empty (search env0 args_all reversed_scheds) world0 =
  (Ok (JsonAllTables "x" []),
   record (EvFetch (ReqMeta "appBase") (Parsed (mkBody (Arr []) Absent None))) world0).
Proof.
  apply (federated_no_table env0 args_all reversed_scheds outside_empty world0
           (mkBody (Arr []) Absent None) eq_refl eq_refl);
    [discriminate | reflexivity].
Defined.

(** X13.  The listing of the tables of a federated search is not protected
    by the handler of the tables' failures: when that call is rejected, or
    its body is no JSON, or its tables are a value that is no array, the
    whole call throws after that one call. *)
Theorem federated_listing_failure_propagates (env : ResolvedEnv) (a : SearchArgs)
    (scheds : nat -> list nat) (o : Outside) (w : World) :
  a_allTables a = true ->
  let rq := ReqMeta (AIRTABLE_BASE_ID env) in
  let r := respond o (trace w) rq in
  match r with
  | NetworkError => run o (search env a scheds) w = (Err FetchFailed, record (EvFetch rq r) w)
  | BadJson => run o (search env a scheds) w = (Err SyntaxError, record (EvFetch rq r) w)
  | Parsed data =>
      b_tables data = NotArray ->
      run o (search env a scheds) w = (Err TypeError, record (EvFetch rq r) w)
  end.
Proof.
  intros Hall. cbv zeta. unfold search, search_allTables. rewrite Hall.
  rewrite run_bind, run_fetch_json.
  destruct (respond o (trace w) (ReqMeta (AIRTABLE_BASE_ID env))) as [| |data];
    try reflexivity.
  intros Hd. rewrite run_bind, run_arr_or_empty. by rewrite Hd.
Qed.

Lemma federated_listing_failure_propagates_example :
  run (outside_down 0) (search env0 args_all reversed_scheds) world0 =
  (Err FetchFailed, record (EvFetch (ReqMeta "appBase") NetworkError) world0).
Proof.
  exact (federated_listing_failure_propagates env0 args_all reversed_scheds
           (outside_down 0) world0 eq_refl).
Defined.

Lemma omap_cons {A B : Type} (f : A -> option B) (x : A) (l : list A) :
  omap f (x :: l) =
  match f x with
  | Some y => y :: omap f l
  | None => omap f l
  end.
Proof. reflexivity. Qed.


(** ** Federated search: the calls *)

Lemma listed_tables_filter (tr : list Event) :
  listed_tables (List.filter is_list_fetch tr) = listed_tables tr.
Proof.
  unfold listed_tables. induction tr as [|ev tr IH]; [reflexivity|].
  cbn [List.filter]. destruct ev as [[b|b t q|b t i] r|z|c|ms];
    cbn [is_list_fetch]; rewrite ?omap_cons; by rewrite IH.
Qed.

Lemma listed_tables_listings (env : ResolvedEnv) (a : SearchArgs) (ls : list Listing) :
  listed_tables (map (listing_event env a) ls) = map l_table ls.
Proof.
  unfold listed_tables. induction ls as [|l ls IH]; [reflexivity|].
  cbn [map]. rewrite omap_cons. cbn [listing_event]. by rewrite IH.
Qed.

Lemma concat_map_tables (lss : list (list Listing)) :
  map l_table (concat lss) = concat (map (map l_table) lss).
Proof.
  induction lss as [|ls lss IH]; [reflexivity|].
  cbn [concat map]. by rewrite map_app, IH.
Qed.

(** X15.  Whatever the schedule and whatever the formula steps do, a
    federated search lists the records of every table reference exactly
    once: the tables of its listing calls are the references, up to the
    order inside the batches. *)
Theorem federated_lists_each_table_once (env : ResolvedEnv) (a : SearchArgs)
    (scheds : nat -> list nat) (o : Outside) (w : World) (data : Body) :
  a_allTables a = true ->
  respond o (trace w) (ReqMeta (AIRTABLE_BASE_ID env)) = Parsed data ->
  b_tables data <> NotArray ->
  Permutation (listed_tables (since w (snd (run o (search env a scheds) w))))
              (table_refs (listed_entries data)).
Proof.
  intros Hall Hresp Harr.
  destruct (search_allTables_run env a scheds o w data Hall Hresp Harr)
    as (lss & rest & _ & Htr & HR & Hm).
  rewrite (since_app _ _ _ Htr).
  change (listed_tables (EvFetch (ReqMeta (AIRTABLE_BASE_ID env)) (Parsed data) :: rest))
    with (listed_tables rest).
  rewrite <- listed_tables_filter.
  apply Rounds_listings in HR.
  unfold listed_tables at 1. rewrite HR.
  change (omap _ (map (listing_event env a) (concat lss)))
    with (listed_tables (map (listing_event env a) (concat lss))).
  rewrite listed_tables_listings, concat_map_tables, Hm.
  change BATCH with 3.
  by rewrite (proj1 (batches_spec (table_refs (listed_entries data)))).
Qed.

Lemma federated_lists_each_table_once_example :
  Permutation
    (listed_tables (since world0
       (snd (run outside7 (search env0 args_auto reversed_scheds) world0))))
    seven_names.
Proof.
  exact (federated_lists_each_table_once env0 args_auto reversed_scheds outside7 world0
           (mkBody (Arr seven_tables) Absent None) eq_refl eq_refl
           ltac:(discriminate)).
Defined.

Lemma ListOnly_bind {A B : Type} (p : Prog A) (f : A -> Prog B) :
  ListOnly p -> (forall a, ListOnly (f a)) -> ListOnly (bind p f).
Proof. induction 1; intros Hf; simpl; try constructor; auto. Qed.

Lemma ListOnly_catch {A : Type} (p : Prog A) (h : Error -> Prog A) :
  ListOnly p -> (forall e, ListOnly (h e)) -> ListOnly (catch p h).
Proof. induction 1; intros Hh; simpl; try constructor; auto. Qed.

Lemma ListOnly_table_task (env : ResolvedEnv) (a : SearchArgs) (t f : string)
    (fs : list string) :
  a_fieldsToSearch a = Some (f :: fs) -> ListOnly (table_task env a t).
Proof.
  intros Hfs. unfold table_task, searchOneTable, buildSearchFormula.
  cbn [p_fieldsToSearch]. rewrite Hfs. cbn [catch bind].
  apply ListOnly_catch; [|intros; constructor].
  apply ListOnly_bind.
  { constructor; [reflexivity|]. intros []; constructor. }
  intros data. apply ListOnly_bind; [destruct (b_records data); constructor|].
  intros recs. apply ListOnly_bind; [|intros; constructor].
  unfold to_hits. destruct (mapM _ recs); constructor.
Qed.

Lemma ListOnly_in_turn {B : Type} (tasks : list (Prog B)) :
  Forall ListOnly tasks -> ListOnly (in_turn tasks).
Proof.
  induction 1 as [|p ps Hp _ IH]; simpl; [constructor|].
  apply ListOnly_bind; [done|]. intros b.
  apply ListOnly_bind; [done|]. intros bs. constructor.
Qed.

Lemma ListOnly_promise_all {B : Type} (sched : list nat) (tasks : list (Prog B)) :
  Forall ListOnly tasks -> ListOnly (promise_all sched tasks).
Proof.
  revert tasks. induction sched as [|j sched IH]; intros tasks Hall.
  - by apply ListOnly_in_turn.
  - simpl. unfold advance.
    destruct (tasks !! j) as [p|] eqn:Hj; [|by apply IH].
    assert (Hp : ListOnly p) by (eapply Forall_lookup_1; eauto).
    destruct p as [b|e|rq k|k|k|c k|ms k]; try (by apply IH);
      inversion Hp as [| |? ? Hrq Hk|? ? Hk]; subst.
    + constructor; [done|]. intros r. apply IH. by apply Forall_insert.
    + constructor. apply IH. by apply Forall_insert.
Qed.

Lemma ListOnly_batch_loop (env : ResolvedEnv) (a : SearchArgs) (scheds : nat -> list nat)
    (tables : list string) (f : string) (fs : list string)
    (fuel i : nat) (merged : list Hit) :
  a_fieldsToSearch a = Some (f :: fs) ->
  ListOnly (batch_loop env a scheds tables fuel i merged).
Proof.
  intros Hfs. revert i merged. induction fuel as [|fuel IH]; intros i merged.
  - rewrite batch_loop_0. constructor.
  - rewrite batch_loop_S. destruct (i <? length tables); [|constructor].
    apply ListOnly_bind.
    + apply ListOnly_promise_all. apply Forall_forall. intros p Hp.
      apply list_elem_of_fmap in Hp as (t & -> & _).
      by apply (ListOnly_table_task env a t f fs).
    + intros results. apply ListOnly_bind; [|intros; apply IH].
      destruct (i + BATCH <? length tables); repeat constructor.
Qed.

(** A program of listings and pauses leaves tableCache alone, and its
    events are listings and pauses. *)
Lemma run_ListOnly {A : Type} (o : Outside) (p : Prog A) (w : World) :
  ListOnly p ->
  tableCache (snd (run o p w)) = tableCache w /\
  exists l, trace (snd (run o p w)) = trace w ++ l /\
            Forall (fun ev => is_list_fetch ev = true \/ is_sleep ev = true) l.
Proof.
  intros Hp. revert w. induction Hp as [b|e|rq k Hrq _ IH|ms k _ IH]; intros w; simpl.
  - split; [done|]. exists []. by rewrite app_nil_r.
  - split; [done|]. exists []. by rewrite app_nil_r.
  - destruct (IH (respond o (trace w) rq) (record (EvFetch rq (respond o (trace w) rq)) w))
      as (Hc & l & Htr & Hl).
    split; [done|]. eexists. rewrite Htr. simpl. rewrite <- app_assoc.
    split; [reflexivity|]. constructor; [|done]. left. by destruct rq.
  - destruct (IH (record (EvSleep ms) w)) as (Hc & l & Htr & Hl).
    split; [done|]. eexists. rewrite Htr. simpl. rewrite <- app_assoc.
    split; [reflexivity|]. constructor; [|done]. by right.
Qed.

Lemma listings_and_pauses_count (l : list Event) :
  Forall (fun ev => is_list_fetch ev = true \/ is_sleep ev = true) l ->
  meta_calls l = 0 /\
  List.filter is_fetch l = List.filter is_list_fetch l /\
  length l = length (listed_tables l) + length (sleeps l).
Proof.
  unfold meta_calls, listed_tables, sleeps.
  induction 1 as [|ev l Hev _ (IH1 & IH2 & IH3)]; [done|].
  rewrite !omap_cons.
  destruct ev as [[b|b t q|b t i] r|z|c|ms]; destruct Hev as [Hev|Hev];
    try discriminate; cbn [List.filter is_meta_fetch is_fetch is_list_fetch length];
    repeat split; try done; try (by rewrite IH2); lia.
Qed.

(** X16.  A federated search over fields given by the caller calls the
    service 1 + n times for n table references: the listing of the tables,
    then one listing of records per table.  Between these calls it only
    pauses (one pause less than there are batches); it never reads the
    clock, never fetches a schema and never assigns tableCache. *)
Theorem federated_explicit_fields_calls (env : ResolvedEnv) (a : SearchArgs)
    (scheds : nat -> list nat) (o : Outside) (w : World) (data : Body)
    (fields : list string) :
  a_allTables a = true ->
  a_fieldsToSearch a = Some fields ->
  fields <> [] ->
  respond o (trace w) (ReqMeta (AIRTABLE_BASE_ID env)) = Parsed data ->
  b_tables data <> NotArray ->
  let w' := snd (run o (search env a scheds) w) in
  let n := length (table_refs (listed_entries data)) in
  tableCache w' = tableCache w /\
  meta_calls (since w w') = 1 /\
  length (List.filter is_fetch (since w w')) = 1 + n /\
  length (since w w') = 1 + n + (batch_count BATCH n - 1) /\
  Forall (fun ev => is_fetch ev = true \/ is_sleep ev = true) (since w w').
Proof.
  intros Hall Hfs Hne Hresp Harr. cbv zeta.
  destruct fields as [|f fs]; [done|].
  destruct (search_allTables_run env a scheds o w data Hall Hresp Harr)
    as (lss & rest & _ & Htr & HR & Hm).
  pose proof (run_search_allTables env a scheds o w data Hall Hresp Harr) as Hrun.
  cbv zeta in Hrun.
  set (tables := table_refs (listed_entries data)) in *.
  set (w0 := record (EvFetch (ReqMeta (AIRTABLE_BASE_ID env)) (Parsed data)) w) in *.
  destruct (run_ListOnly o (batch_loop env a scheds tables (length tables) 0 []) w0
              (ListOnly_batch_loop env a scheds tables f fs _ _ _ Hfs))
    as (Hcache & l & Hl & Hall_l).
  assert (Hsnd : snd (run o (search env a scheds) w) =
                 snd (run o (batch_loop env a scheds tables (length tables) 0 []) w0)).
  { rewrite Hrun. by destruct (run o (batch_loop _ _ _ _ _ _ _) w0) as [[m|e] w1]. }
  rewrite Hsnd in Htr |- *.
  assert (Hrest : rest = l).
  { rewrite Hl in Htr. unfold w0 in Htr. cbn [trace record] in Htr.
    rewrite <- app_assoc in Htr. apply app_inv_head in Htr.
    by injection Htr as <-. }
  subst rest.
  rewrite (since_app w _ _ Htr).
  destruct (listings_and_pauses_count l Hall_l) as (Hmeta & Hfetch & Hlen).
  assert (Hlisted : length (listed_tables l) = length tables).
  { rewrite <- listed_tables_filter.
    pose proof (Rounds_listings env a lss l HR) as Hp.
    unfold listed_tables at 1. rewrite Hp.
    change (omap _ (map (listing_event env a) (concat lss)))
      with (listed_tables (map (listing_event env a) (concat lss))).
    rewrite listed_tables_listings, concat_map_tables, Hm.
    change BATCH with 3. by rewrite (proj1 (batches_spec tables)). }
  assert (Hpauses : length (sleeps l) = batch_count BATCH (length tables) - 1).
  { rewrite (Rounds_sleeps env a lss l HR), repeat_length.
    rewrite <- (length_map (map l_table) lss), Hm. change BATCH with 3.
    by rewrite (proj1 (proj2 (batches_spec tables))). }
  split; [by rewrite Hcache|]. split; [|split; [|split]].
  - unfold meta_calls in *. simpl. lia.
  - cbn [List.filter is_fetch length]. rewrite Hfetch. f_equal.
    rewrite <- Hlisted. clear. unfold listed_tables.
    induction l as [|ev l IH]; [reflexivity|]. rewrite omap_cons.
    destruct ev as [[b|b t q|b t i] r|z|c|ms]; cbn [List.filter is_list_fetch length];
      by rewrite ?IH.
  - cbn [length]. rewrite Hlen, Hlisted, Hpauses. lia.
  - constructor; [by left|].
    eapply Forall_impl; [exact Hall_l|]. intros ev [Hev|Hev]; [left | by right].
    by destruct ev as [[b|b t q|b t i] r|z|c|ms].
Qed.

Lemma federated_explicit_fields_calls_example :
  let w' := snd (run outside7 (search env0 args_all reversed_scheds) world0) in
  tableCache w' = None /\
  meta_calls (since world0 w') = 1 /\
  length (List.filter is_fetch (since world0 w')) = 8 /\
  length (since world0 w') = 10.
Proof.
  destruct (federated_explicit_fields_calls env0 args_all reversed_scheds outside7 world0
              (mkBody (Arr seven_tables) Absent None) ["Name"]
              eq_refl eq_refl ltac:(discriminate) eq_refl ltac:(discriminate))
    as (Hc & Hm & Hf & Hl & _).
  repeat split; assumption.
Defined.

(** ** The environment *)

Lemma must_Ok (name : string) (v : option string) (s : string) :
  must name v = Ok s <-> v = Some s /\ s <> EmptyString.
Proof.
  unfold must, truthy_val. destruct (truthy v) eqn:E.
  - destruct v as [x|]; [|discriminate]. apply truthy_Some in E. split.
    + by intros [= <-].
    + by intros [[= <-] _].
  - split.
    + destruct v; discriminate.
    + intros [-> Hne]. apply truthy_Some in Hne. congruence.
Qed.

(** X17.  getEnv succeeds exactly when the API key and the base identifier
    are both set to non-empty strings, each read from globalThis when it is
    defined there and from process.env otherwise (so an empty value on
    globalThis hides the one of process.env).  It fails on the API key
    before it looks at the base.  The allowlist never makes it fail: text
    that is missing, empty or no JSON gives no allowlist. *)
Theorem getEnv_requires_key_and_base (parse : string -> option (gmap string string))
    (raw : RawEnv) :
  let key := nullish_or (g_API_KEY raw) (p_API_KEY raw) in
  let base := nullish_or (g_BASE_ID raw) (p_BASE_ID raw) in
  let allowed := nullish_or (g_ALLOWED_TABLES raw) (p_ALLOWED_TABLES raw) in
  (forall k env, getEnv parse raw = Ok (k, env) <->
     (key = Some k /\ k <> EmptyString) /\
     (base = Some (AIRTABLE_BASE_ID env) /\ AIRTABLE_BASE_ID env <> EmptyString) /\
     DEFAULT_TABLE env = nullish_or (g_DEFAULT_TABLE raw) (p_DEFAULT_TABLE raw) /\
     ALLOWED_TABLES env =
       match allowed with
       | Some s => if String.eqb s EmptyString then None else parse s
       | None => None
       end) /\
  (truthy key = false ->
   getEnv parse raw = Err (JsError "Missing required env: AIRTABLE_API_KEY")) /\
  (truthy key = true -> truthy base = false ->
   getEnv parse raw = Err (JsError "Missing required env: AIRTABLE_BASE_ID")) /\
  (g_API_KEY raw = Some EmptyString ->
   getEnv parse raw = Err (JsError "Missing required env: AIRTABLE_API_KEY")).
Proof.
  cbv zeta.
  assert (Hallowed :
    match truthy_val (nullish_or (g_ALLOWED_TABLES raw) (p_ALLOWED_TABLES raw)) with
    | Some s => parse s
    | None => None
    end =
    match nullish_or (g_ALLOWED_TABLES raw) (p_ALLOWED_TABLES raw) with
    | Some s => if String.eqb s EmptyString then None else parse s
    | None => None
    end).
  { unfold truthy_val, truthy.
    destruct (nullish_or _ _) as [s|]; [|reflexivity].
    by destruct (String.eqb s EmptyString). }
  unfold getEnv. cbv zeta. rewrite Hallowed.
  split; [|split; [|split]].
  - intros k env.
    destruct (must "AIRTABLE_API_KEY" _) as [k'|e] eqn:Ek.
    + destruct (must "AIRTABLE_BASE_ID" _) as [b'|e] eqn:Eb.
      * apply must_Ok in Ek, Eb. split.
        -- intros [= <- <-]. cbn [AIRTABLE_BASE_ID DEFAULT_TABLE ALLOWED_TABLES].
           tauto.
        -- intros ((Hk & _) & (Hb & _) & Hd & Ha).
           destruct env as [b d al]; cbn in *. destruct Ek as [Ek _], Eb as [Eb _].
           congruence.
      * split; [discriminate|]. intros (_ & Hb & _).
        apply (must_Ok "AIRTABLE_BASE_ID") in Hb. congruence.
    + split; [discriminate|]. intros (Hk & _).
      apply (must_Ok "AIRTABLE_API_KEY") in Hk. congruence.
  - intros Hk. unfold must at 1, truthy_val. by rewrite Hk.
  - intros Hk Hb. unfold must at 1, truthy_val. rewrite Hk.
    destruct (nullish_or (g_API_KEY raw) (p_API_KEY raw)); [|discriminate].
    unfold must, truthy_val. by rewrite Hb.
  - intros Hg. rewrite Hg. reflexivity.
Qed.

(** The API key on globalThis, the base in process.env, an allowlist that
    does not parse: the environment is resolved, without an allowlist. *)
Example getEnv_raw0 :
  getEnv parse_nothing raw0 = Ok ("key", mkEnv "appBase" (Some "Tasks") None).
Proof. reflexivity. Qed.

(** X18.  A request whose bindings hold a non-empty API key and base
    identifier makes getEnv succeed with them, whatever globalThis and
    process.env held before; and the values stay: after a later request
    that comes without bindings, getEnv gives the same environment. *)
Theorem expose_then_getEnv (parse : string -> option (gmap string string))
    (b : Bindings) (raw : RawEnv) (k base : string) :
  b_API_KEY b = Some k -> k <> EmptyString ->
  b_BASE_ID b = Some base -> base <> EmptyString ->
  (exists env, getEnv parse (expose b raw) = Ok (k, env) /\ AIRTABLE_BASE_ID env = base) /\
  expose no_bindings (expose b raw) = expose b raw /\
  getEnv parse (expose no_bindings (expose b raw)) = getEnv parse (expose b raw).
Proof.
  intros Hk Hk0 Hb Hb0.
  assert (Hsame : expose no_bindings (expose b raw) = expose b raw) by reflexivity.
  split; [|split; [exact Hsame | by rewrite Hsame]].
  unfold getEnv, expose. cbn [g_API_KEY p_API_KEY g_BASE_ID p_BASE_ID].
  rewrite Hk, Hb. cbn [nullish_or].
  apply truthy_Some in Hk0, Hb0. unfold must, truthy_val. rewrite Hk0, Hb0.
  eexists. split; reflexivity.
Qed.

Lemma expose_then_getEnv_example :
  exists env, getEnv parse_nothing (expose bindings0 raw_nothing) = Ok ("key", env) /\
              AIRTABLE_BASE_ID env = "appBase".
Proof.
  apply (expose_then_getEnv parse_nothing bindings0 raw_nothing "key" "appBase");
    (reflexivity || discriminate).
Defined.

(** ** The search tool, the table it searches *)

(** X19.  In single-table mode the table searched is the table argument
    when it is not empty, and the default table when there is no argument
    and the default is not empty.  Then no table is listed, and with fields
    given by the caller the whole call is one listing of that table. *)
Theorem search_target_precedence (env : ResolvedEnv) (a : SearchArgs)
    (scheds : nat -> list nat) (t : string) :
  a_allTables a = false ->
  t <> EmptyString ->
  a_table a = Some t \/ (a_table a = None /\ DEFAULT_TABLE env = Some t) ->
  search env a scheds = search_table env a t /\
  (forall (fields : list string) (o : Outside) (w : World),
     a_fieldsToSearch a = Some fields -> fields <> [] ->
     let rq := ReqList (AIRTABLE_BASE_ID env) t
                 (list_query (a_maxRecords a) (a_pageSize a) (a_offset a)
                             (buildFormulaFromFields (a_q a) fields)) in
     let r := respond o (trace w) rq in
     run o (search env a scheds) w =
       (match search_outcome t r with
        | Ok out => Ok (JsonTable (a_q a) t (hits out) (offset out))
        | Err e => Err e
        end,
        mkWorld (tableCache w) (trace w ++ [EvFetch rq r]))).
Proof.
  intros Hall Hne Ht.
  assert (Hprog : search env a scheds = search_table env a t).
  { unfold search, search_single. rewrite Hall.
    apply truthy_Some in Hne.
    destruct Ht as [Ha|[Ha Hd]]; rewrite Ha; [|rewrite Hd];
      cbn [nullish_or]; unfold truthy_val; by rewrite Hne. }
  split; [exact Hprog|].
  intros fields o w Hfs Hfields. cbv zeta.
  rewrite Hprog, run_search_table, run_searchOneTable.
  cbn [p_baseId p_tableNameOrId p_q p_maxRecords p_pageSize p_offset p_fieldsToSearch].
  rewrite Hfs. destruct fields as [|f fs]; [done|].
  cbn [buildSearchFormula run fst snd formula_or_empty].
  by destruct (search_outcome t _).
Qed.

Lemma search_target_precedence_example :
  search (mkEnv "appBase" (Some "Tasks") None)
         (mkArgs "x" (Some "T1") false None 5 None None) in_turn_scheds =
  search_table (mkEnv "appBase" (Some "Tasks") None)
         (mkArgs "x" (Some "T1") false None 5 None None) "T1".
Proof.
  apply (search_target_precedence (mkEnv "appBase" (Some "Tasks") None)
           (mkArgs "x" (Some "T1") false None 5 None None) in_turn_scheds "T1" eq_refl).
  - discriminate.
  - by left.
Defined.

Lemma table_task_ignores (env : ResolvedEnv) (a : SearchArgs)
    (t' off' : option string) (t : string) :
  table_task env (with_table_offset a t' off') t = table_task env a t.
Proof. reflexivity. Qed.

Lemma batch_loop_ignores (env : ResolvedEnv) (a : SearchArgs) (scheds : nat -> list nat)
    (t' off' : option string) (tables : list string) (o : Outside)
    (fuel i : nat) (merged : list Hit) (w : World) :
  run o (batch_loop env (with_table_offset a t' off') scheds tables fuel i merged) w =
  run o (batch_loop env a scheds tables fuel i merged) w.
Proof.
  revert i merged w. induction fuel as [|fuel IH]; intros i merged w.
  - by rewrite !batch_loop_0.
  - rewrite !batch_loop_S. destruct (i <? length tables); [|reflexivity].
    rewrite !run_bind.
    replace (map (table_task env (with_table_offset a t' off')) (slice tables i (i + BATCH)))
      with (map (table_task env a) (slice tables i (i + BATCH))) by reflexivity.
    destruct (run o (promise_all _ _) w) as [[results|e] w1]; [|reflexivity].
    cbn [fst snd]. rewrite !run_bind.
    destruct (run o (if i + BATCH <? length tables then sleep PAUSE else Ret tt) w1)
      as [[[]|e] w2]; [|reflexivity].
    cbn [fst snd]. apply IH.
Qed.

(** X20.  A federated search has no pagination and no table of its own:
    the table and offset arguments are never read, so two calls that
    differ only in them run alike, call for call, under every schedule,
    and give the same merged hits. *)
Theorem federated_ignores_table_and_offset (env : ResolvedEnv) (a : SearchArgs)
    (scheds : nat -> list nat) (t' off' : option string) (o : Outside) (w : World) :
  a_allTables a = true ->
  run o (search env (with_table_offset a t' off') scheds) w =
  run o (search env a scheds) w.
Proof.
  intros Hall. unfold search. cbn [with_table_offset a_allTables]. rewrite Hall.
  unfold search_allTables. rewrite !run_bind.
  destruct (run o (fetch_json _) w) as [[body|e] w1]; [|reflexivity].
  cbn [fst snd]. rewrite !run_bind.
  destruct (run o (arr_or_empty _) w1) as [[entries|e] w2]; [|reflexivity].
  cbn [fst snd]. cbv zeta. rewrite !run_bind, batch_loop_ignores.
  reflexivity.
Qed.

Lemma federated_ignores_table_and_offset_example :
  run outside7 (search env0 (with_table_offset args_all (Some "Tasks") (Some "itr1"))
                       reversed_scheds) world0 =
  run outside7 (search env0 args_all reversed_scheds) world0.
Proof.
  apply (federated_ignores_table_and_offset env0 args_all reversed_scheds
           (Some "Tasks") (Some "itr1") outside7 world0 eq_refl).
Defined.
